(** * Disk-block allocation: bitmap and linked free list

    A shallow embedding of the two C allocators of the repository

      - [ai-generated-bitmap-code-in-C.c]: [map_init], [allocate_contiguous],
        [free_contiguous] (the hand-commented variant names the same
        functions [start_bitmap_from_scratch], [find_and_take_blocks],
        [give_back_blocks] and adds [check_block_status]);
      - [ai-generated-linked-list-allocation-code-in-C.c]: [setup],
        [get_one_block], [get_blocks], [release_blocks], [display_state]
        (hand-commented variant: [initialize_linked_system],
        [grab_one_free_block], [allocate_file_blocks], [free_up_file_blocks],
        [show_linked_list_state]).

    C [int]s are modelled as [Z]; every value the allocators compute stays
    far below the 32-bit limits.  The global arrays are lists, passed
    explicitly.  An array access outside its bounds and a shift by a negative
    amount are undefined behaviour in C and are modelled by the outcome
    [Fault]; a [while] loop is run with fuel and yields [Timeout] when the
    fuel runs out. *)

From Stdlib Require Import ZArith List Lia Bool.
Import ListNotations.
Local Open Scope Z_scope.

(* ------------------------------------------------------------------ *)
(** ** Outcomes of a C computation *)

Inductive outcome (A : Type) : Type :=
| Done (a : A)
| Fault
| Timeout.

Arguments Done {A} a.
Arguments Fault {A}.
Arguments Timeout {A}.

Definition bind {A B : Type} (c : outcome A) (k : A -> outcome B) : outcome B :=
  match c with
  | Done a => k a
  | Fault => Fault
  | Timeout => Timeout
  end.

Notation "x <- c ;; k" := (bind c (fun x => k))
  (at level 61, c at next level, right associativity).

(* ------------------------------------------------------------------ *)
(** ** C arrays of integers *)

Fixpoint upd (a : list Z) (i : nat) (v : Z) : list Z :=
  match a, i with
  | [], _ => []
  | _ :: t, O => v :: t
  | h :: t, S i' => h :: upd t i' v
  end.

Definition in_bounds (a : list Z) (i : Z) : bool :=
  (0 <=? i) && (i <? Z.of_nat (length a)).

(** [a[i]] *)
Definition load (a : list Z) (i : Z) : outcome Z :=
  if in_bounds a i then Done (nth (Z.to_nat i) a 0) else Fault.

(** [a[i] = v] *)
Definition store (a : list Z) (i v : Z) : outcome (list Z) :=
  if in_bounds a i then Done (upd a (Z.to_nat i) v) else Fault.

(** [1 << k] on a 32-bit [int]: defined for [0 <= k < 31] only. *)
Definition shl1 (k : Z) : outcome Z :=
  if (0 <=? k) && (k <? 31) then Done (Z.shiftl 1 k) else Fault.

(** Conversion of an [int] to [uint8_t] on assignment. *)
Definition to_uint8 (x : Z) : Z := x mod 256.

(* ------------------------------------------------------------------ *)
(** ** The bitmap allocator *)

Module Bitmap.

Definition BLOCK_COUNT : Z := 64.
Definition BITS_IN_BYTE : Z := 8.
Definition MAP_SIZE : Z := (BLOCK_COUNT + BITS_IN_BYTE - 1) ÷ BITS_IN_BYTE.

(** [uint8_t allocation_map[MAP_SIZE]] *)
Definition bitmap : Type := list Z.

(** [memset(allocation_map, 0, MAP_SIZE)] *)
Definition map_init : bitmap := repeat 0 (Z.to_nat MAP_SIZE).

(** [(the_bitmap_thing[byte_position] >> bit_offset) & 1] *)
Definition check_block_status (m : bitmap) (block_num : Z) : outcome Z :=
  let byte_position := block_num ÷ BITS_IN_BYTE in
  let bit_offset := Z.rem block_num BITS_IN_BYTE in
  b <- load m byte_position ;;
  if (0 <=? bit_offset) && (bit_offset <? 32)
  then Done (Z.land (Z.shiftr b bit_offset) 1)
  else Fault.

(** [allocation_map[b] |= (1 << bt)] for block [blk] *)
Definition set_block (m : bitmap) (blk : Z) : outcome bitmap :=
  let b := blk ÷ BITS_IN_BYTE in
  let bt := Z.rem blk BITS_IN_BYTE in
  old <- load m b ;;
  mask <- shl1 bt ;;
  store m b (to_uint8 (Z.lor old mask)).

(** [allocation_map[by] &= ~(1 << bi)] for block [blk] *)
Definition clear_block (m : bitmap) (blk : Z) : outcome bitmap :=
  let by_ := blk ÷ BITS_IN_BYTE in
  let bi := Z.rem blk BITS_IN_BYTE in
  old <- load m by_ ;;
  mask <- shl1 bi ;;
  store m by_ (to_uint8 (Z.land old (Z.lnot mask))).

(** The inner loop [for (j = 0; j < need; j++)] of [allocate_contiguous];
    [n] counts the iterations that remain. *)
Fixpoint mark_run (n : nat) (m : bitmap) (begin j : Z) : outcome bitmap :=
  match n with
  | O => Done m
  | S n' =>
      m' <- set_block m (begin + j) ;;
      mark_run n' m' begin (j + 1)
  end.

(** The outer loop [for (i = 0; i < BLOCK_COUNT; i++)]; [n] counts the
    iterations that remain, [seq] and [begin] are the loop's locals. *)
Fixpoint scan (n : nat) (m : bitmap) (need i seq begin : Z)
  : outcome (bitmap * Z) :=
  match n with
  | O => Done (m, -1)
  | S n' =>
      let by_ := i ÷ BITS_IN_BYTE in
      let bi := Z.rem i BITS_IN_BYTE in
      b <- load m by_ ;;
      mask <- shl1 bi ;;
      if Z.land b mask =? 0 then
        let begin1 := if seq =? 0 then i else begin in
        let seq1 := seq + 1 in
        if seq1 =? need then
          m' <- mark_run (Z.to_nat need) m begin1 0 ;;
          Done (m', begin1)
        else scan n' m need (i + 1) seq1 begin1
      else scan n' m need (i + 1) 0 (-1)
  end.

Definition allocate_contiguous (m : bitmap) (need : Z) : outcome (bitmap * Z) :=
  if (need <=? 0) || (need >? BLOCK_COUNT) then Done (m, -1)
  else scan (Z.to_nat BLOCK_COUNT) m need 0 0 (-1).

(** [for (i = 0; i < cnt; i++)] of [free_contiguous] *)
Fixpoint free_loop (n : nat) (m : bitmap) (start i : Z) : outcome bitmap :=
  match n with
  | O => Done m
  | S n' =>
      m' <- clear_block m (start + i) ;;
      free_loop n' m' start (i + 1)
  end.

Definition free_contiguous (m : bitmap) (start cnt : Z) : outcome bitmap :=
  free_loop (Z.to_nat cnt) m start 0.

(** The representation invariant of the global array: [MAP_SIZE] bytes. *)
Definition wf_map (m : bitmap) : Prop :=
  length m = Z.to_nat MAP_SIZE /\ Forall (fun b => 0 <= b < 256) m.

(** Blocks [start .. start+need-1] exist and are all reported free. *)
Definition run_free (m : bitmap) (start need : Z) : Prop :=
  0 <= start /\ start + need <= BLOCK_COUNT /\
  forall i, start <= i < start + need -> check_block_status m i = Done 0.

(** The bit of block [i], read off the byte array. *)
Definition bit (m : bitmap) (i : Z) : bool :=
  Z.testbit (nth (Z.to_nat (i / 8)) m 0) (i mod 8).

Definition valid (i : Z) : Prop := 0 <= i < BLOCK_COUNT.

(** [m'] is [m] with the blocks [s .. s+n-1] set to used. *)
Definition marked (m m' : bitmap) (s n : Z) : Prop :=
  wf_map m' /\
  forall k, valid k -> bit m' k = ((s <=? k) && (k <? s + n)) || bit m k.

(** [m'] is [m] with the blocks [s .. s+n-1] set to free. *)
Definition cleared (m m' : bitmap) (s n : Z) : Prop :=
  wf_map m' /\
  forall k, valid k -> bit m' k = negb ((s <=? k) && (k <? s + n)) && bit m k.

(** The bit-level reading of [run_free]. *)
Definition free_at (m : bitmap) (s need : Z) : Prop :=
  0 <= s /\ s + need <= BLOCK_COUNT /\
  forall j, s <= j < s + need -> bit m j = false.

(** The block numbers [0 .. BLOCK_COUNT-1], in the order [show_map] visits
    them. *)
Definition block_ids : list Z := map Z.of_nat (seq 0 (Z.to_nat BLOCK_COUNT)).

(** [for (i = 0; i < BLOCK_COUNT; i++) printf("%d", (allocation_map[by] >> bi) & 1)]
    of [show_map]: the digits printed.  The expression printed is the body
    of [check_block_status], which [show_current_bitmap] calls by name. *)
Fixpoint show_loop (n : nat) (m : bitmap) (i : Z) : outcome (list Z) :=
  match n with
  | O => Done []
  | S n' =>
      d <- check_block_status m i ;;
      rest <- show_loop n' m (i + 1) ;;
      Done (d :: rest)
  end.

Definition show_map (m : bitmap) : outcome (list Z) :=
  show_loop (Z.to_nat BLOCK_COUNT) m 0.

(** The number of blocks [show_map] prints as used. *)
Definition used_count (m : bitmap) : outcome Z :=
  d <- show_map m ;; Done (fold_right Z.add 0 d).

(** The loop of [trace_test_bitmap] over the array [steps]: allocate, then
    print the map; the result is the list of lines printed. *)
Fixpoint trace_loop (steps : list Z) (m : bitmap) : outcome (list (list Z)) :=
  match steps with
  | [] => Done []
  | st :: rest =>
      r <- allocate_contiguous m st ;;
      let (m', _) := r in
      line <- show_map m' ;;
      lines <- trace_loop rest m' ;;
      Done (line :: lines)
  end.

Definition trace_steps : list Z := [2; 3; 5; 2; 4; 6; 1; 3; 5; 2; 4; 3; 2; 1; 5].

Definition trace_test_bitmap : outcome (list (list Z)) :=
  trace_loop trace_steps map_init.

(** The running totals of a list of sizes. *)
Fixpoint running (acc : Z) (steps : list Z) : list Z :=
  match steps with
  | [] => []
  | x :: rest => (acc + x) :: running (acc + x) rest
  end.

(** The line [show_map] prints when exactly the first [k] blocks are used. *)
Definition packed_line (k : Z) : list Z :=
  map (fun i => if i <? k then 1 else 0) block_ids.

(** The allocation phase of one run of [speed_test_bitmap]:
    [sizes[i] = (rand() % 5) + 1; allocs[i] = allocate_contiguous(sizes[i])].
    The values [rand()] returns are the parameter [draws]; the result holds
    the pairs [(allocs[i], sizes[i])]. *)
Fixpoint alloc_phase (draws : list Z) (m : bitmap)
  : outcome (bitmap * list (Z * Z)) :=
  match draws with
  | [] => Done (m, [])
  | d :: rest =>
      let size := Z.rem d 5 + 1 in
      r <- allocate_contiguous m size ;;
      let (m', a) := r in
      r' <- alloc_phase rest m' ;;
      let (m'', log) := r' in
      Done (m'', (a, size) :: log)
  end.

(** The freeing phase:
    [if (allocs[i] != -1) free_contiguous(allocs[i], sizes[i])]. *)
Fixpoint free_phase (log : list (Z * Z)) (m : bitmap) : outcome bitmap :=
  match log with
  | [] => Done m
  | (a, size) :: rest =>
      if negb (a =? -1) then
        m' <- free_contiguous m a size ;;
        free_phase rest m'
      else free_phase rest m
  end.

(** One run of the loop of [speed_test_bitmap]: [map_init], the allocation
    phase, the freeing phase. *)
Definition speed_run (draws : list Z) : outcome bitmap :=
  r <- alloc_phase draws map_init ;;
  let (m, log) := r in
  free_phase log m.

(** Block [i] lies in an extent of [log] that was really allocated. *)
Definition covered (log : list (Z * Z)) (i : Z) : bool :=
  existsb (fun e => negb (fst e =? -1) && (fst e <=? i) && (i <? fst e + snd e))
          log.

(** An extent of the log that was really allocated lies inside the pool. *)
Definition extent_ok (e : Z * Z) : Prop :=
  fst e <> -1 -> 0 <= fst e /\ 0 <= snd e /\ fst e + snd e <= BLOCK_COUNT.

(** The pool holds exactly its first [k] blocks. *)
Definition packed (m : bitmap) (k : Z) : Prop :=
  wf_map m /\ forall i, valid i -> bit m i = (i <? k).

End Bitmap.

(* ------------------------------------------------------------------ *)
(** ** The linked free-list allocator *)

Module LinkedList.

Definition MAX_BLOCKS : Z := 64.
Definition NO_BLOCK : Z := -1.

(** The globals [BlockNode storage[MAX_BLOCKS]] and [int free_start].  Only
    the [nxt] field of a node is kept: the allocator never reads the payload
    [info]. *)
Record pool : Type := mkPool { storage : list Z; free_start : Z }.

(** The globals as C initialises them before [main]. *)
Definition initial : pool :=
  mkPool (repeat 0 (Z.to_nat MAX_BLOCKS)) NO_BLOCK.

(** [for (idx = 0; idx < MAX_BLOCKS; idx++)] of [setup] *)
Fixpoint setup_loop (n : nat) (s : list Z) (idx : Z) : outcome (list Z) :=
  match n with
  | O => Done s
  | S n' =>
      s' <- store s idx (if idx <? MAX_BLOCKS - 1 then idx + 1 else NO_BLOCK) ;;
      setup_loop n' s' (idx + 1)
  end.

Definition setup (st : pool) : outcome pool :=
  s <- setup_loop (Z.to_nat MAX_BLOCKS) (storage st) 0 ;;
  Done (mkPool s 0).

Definition get_one_block (st : pool) : outcome (pool * Z) :=
  if free_start st =? NO_BLOCK then Done (st, NO_BLOCK)
  else
    let taken := free_start st in
    nx <- load (storage st) (free_start st) ;;
    s' <- store (storage st) taken NO_BLOCK ;;
    Done (mkPool s' nx, taken).

(** The roll-back loop [while (first != NO_BLOCK)] of [get_blocks]. *)
Fixpoint give_back (fuel : nat) (st : pool) (first : Z) : outcome pool :=
  if first =? NO_BLOCK then Done st
  else
    match fuel with
    | O => Timeout
    | S fuel' =>
        nxt <- load (storage st) first ;;
        s' <- store (storage st) first (free_start st) ;;
        give_back fuel' (mkPool s' first) nxt
    end.

(** [for (cnt = 0; cnt < num; cnt++)] of [get_blocks]; [n] counts the
    iterations that remain, [first] and [prev] are the loop's locals. *)
Fixpoint get_blocks_loop (fuel n : nat) (st : pool) (first prev : Z)
  : outcome (pool * Z) :=
  match n with
  | O => Done (st, first)
  | S n' =>
      r <- get_one_block st ;;
      let (st1, newb) := r in
      if newb =? NO_BLOCK then
        st2 <- give_back fuel st1 first ;;
        Done (st2, NO_BLOCK)
      else if negb (prev =? NO_BLOCK) then
        s' <- store (storage st1) prev newb ;;
        get_blocks_loop fuel n' (mkPool s' (free_start st1)) first newb
      else
        get_blocks_loop fuel n' st1 newb newb
  end.

Definition get_blocks (fuel : nat) (st : pool) (num : Z) : outcome (pool * Z) :=
  if num <=? 0 then Done (st, NO_BLOCK)
  else get_blocks_loop fuel (Z.to_nat num) st NO_BLOCK NO_BLOCK.

(** [while (storage[cur].nxt != NO_BLOCK) { last = cur; cur = storage[cur].nxt; }]
    of [release_blocks]; the result is the final value of [last]. *)
Fixpoint find_last (fuel : nat) (s : list Z) (cur last : Z) : outcome Z :=
  nx <- load s cur ;;
  if nx =? NO_BLOCK then Done last
  else
    match fuel with
    | O => Timeout
    | S fuel' => find_last fuel' s nx cur
    end.

Definition release_blocks (fuel : nat) (st : pool) (begin : Z) : outcome pool :=
  if begin =? NO_BLOCK then Done st
  else
    last <- find_last fuel (storage st) begin begin ;;
    s' <- store (storage st) last (free_start st) ;;
    Done (mkPool s' begin).

(** First loop of [display_state]: [status[cur] = 0] along the free list. *)
Fixpoint clear_status (fuel : nat) (s status : list Z) (cur : Z)
  : outcome (list Z) :=
  if cur =? NO_BLOCK then Done status
  else
    match fuel with
    | O => Timeout
    | S fuel' =>
        status' <- store status cur 0 ;;
        nx <- load s cur ;;
        clear_status fuel' s status' nx
    end.

(** Inner loop of [display_state]: the value of [isfree] for block [i]. *)
Fixpoint isfree (fuel : nat) (s : list Z) (cur i : Z) : outcome Z :=
  if cur =? NO_BLOCK then Done 0
  else if cur =? i then Done 1
  else
    match fuel with
    | O => Timeout
    | S fuel' =>
        nx <- load s cur ;;
        isfree fuel' s nx i
    end.

(** [for (i = 0; i < MAX_BLOCKS; i++)] of [display_state]; the result is the
    list of digits printed, [0] for a free block and [1] for a used one. *)
Fixpoint display_loop (fuel n : nat) (st : pool) (status : list Z) (i : Z)
  : outcome (list Z) :=
  match n with
  | O => Done []
  | S n' =>
      si <- load status i ;;
      if si =? 0 then
        f <- isfree fuel (storage st) (free_start st) i ;;
        rest <- display_loop fuel n' st status (i + 1) ;;
        Done ((if f =? 0 then 1 else 0) :: rest)
      else display_loop fuel n' st status (i + 1)
  end.

Definition display_state (fuel : nat) (st : pool) : outcome (list Z) :=
  status <- clear_status fuel (storage st)
              (repeat 0 (Z.to_nat MAX_BLOCKS)) (free_start st) ;;
  display_loop fuel (Z.to_nat MAX_BLOCKS) st status 0.

(** [show_linked_list_state] of the hand-commented program: every entry of
    [block_status] starts as 1, the walk along the free list (the loop
    [block_status[curr] = 0; curr = my_disk[curr].pointer_to_next], which is
    [clear_status]) sets the free ones to 0, and all entries are printed. *)
Definition show_linked_list_state (fuel : nat) (st : pool) : outcome (list Z) :=
  clear_status fuel (storage st) (repeat 1 (Z.to_nat MAX_BLOCKS)) (free_start st).

(** The loop of [trace_test_list] over the array [seq]: allocate, then
    print the state; the result is the list of lines printed. *)
Fixpoint trace_loop (fuel : nat) (steps : list Z) (st : pool)
  : outcome (list (list Z)) :=
  match steps with
  | [] => Done []
  | x :: rest =>
      r <- get_blocks fuel st x ;;
      let (st', _) := r in
      line <- display_state fuel st' ;;
      lines <- trace_loop fuel rest st' ;;
      Done (line :: lines)
  end.

Definition trace_seq : list Z := [2; 3; 5; 2; 4; 6; 1; 3; 5; 2; 4; 3; 2; 1; 5].

Definition trace_test_list (fuel : nat) : outcome (list (list Z)) :=
  st <- setup initial ;;
  trace_loop fuel trace_seq st.

(** [lseg s h l t]: following [nxt] from [h] visits exactly the blocks [l],
    in this order, and then reaches [t]. *)
Fixpoint lseg (s : list Z) (h : Z) (l : list Z) (t : Z) : Prop :=
  match l with
  | [] => h = t
  | x :: l' =>
      h = x /\ in_bounds s x = true /\ lseg s (nth (Z.to_nat x) s 0) l' t
  end.

(** The chain that starts at [h] consists of the blocks [l] and ends in the
    sentinel. *)
Definition chain (st : pool) (h : Z) (l : list Z) : Prop :=
  lseg (storage st) h l NO_BLOCK.

(** The representation invariant: [MAX_BLOCKS] nodes, and the free list is
    the chain [l] from [free_start]. *)
Definition free_list (st : pool) (l : list Z) : Prop :=
  length (storage st) = Z.to_nat MAX_BLOCKS /\ chain st (free_start st) l.

(** The state of the loop of [get_blocks] after the blocks [tk] have been
    taken, in this order, from a free list that still holds [rs]. *)
Definition building (s : list Z) (fs first prev : Z) (tk rs : list Z) : Prop :=
  NoDup (tk ++ rs) /\
  lseg s fs rs NO_BLOCK /\
  lseg s first tk NO_BLOCK /\
  prev = last tk NO_BLOCK.

(** Storage [s'] has the size of [s] and differs from it at most at the
    blocks [l]. *)
Definition same_outside (l : list Z) (s s' : list Z) : Prop :=
  length s' = length s /\
  forall y, 0 <= y -> ~ In y l -> nth (Z.to_nat y) s' 0 = nth (Z.to_nat y) s 0.

(** Membership of block [i] in a list of blocks. *)
Definition member (l : list Z) (i : Z) : bool := existsb (Z.eqb i) l.

(** The block numbers [0 .. MAX_BLOCKS-1]. *)
Definition blocks : list Z := map Z.of_nat (seq 0 (Z.to_nat MAX_BLOCKS)).

(** The pool right after [setup]. *)
Definition fresh : pool :=
  mkPool (map (fun i => if i <? MAX_BLOCKS - 1 then i + 1 else NO_BLOCK)
              (map Z.of_nat (seq 0 (Z.to_nat MAX_BLOCKS)))) 0.

End LinkedList.

(* ------------------------------------------------------------------ *)
(** ** Driving both allocators with one request sequence

    The benchmark loops of both programs record the handle and the size of
    every allocation and later free the recorded extents that are not the
    failure value.  A request sequence does the same: [Release k] frees what
    the [k]-th [Allocate] of the sequence returned, if it succeeded. *)

Module Driver.

Inductive request : Type :=
| Allocate (need : Z)
| Release (k : nat).

(** What a caller observes of one [Allocate]: whether it succeeded. *)
Definition succeeded (failure handle : Z) : bool := negb (handle =? failure).

(** [log] holds the (handle, size) pairs of the allocations so far, oldest
    first; the result lists the outcome of every [Allocate]. *)
Fixpoint run_bitmap (reqs : list request) (m : Bitmap.bitmap)
  (log : list (Z * Z)) : outcome (list bool) :=
  match reqs with
  | [] => Done []
  | Allocate need :: reqs' =>
      r <- Bitmap.allocate_contiguous m need ;;
      let (m', h) := r in
      obs <- run_bitmap reqs' m' (log ++ [(h, need)]) ;;
      Done (succeeded (-1) h :: obs)
  | Release k :: reqs' =>
      match nth_error log k with
      | Some (h, size) =>
          if h =? -1 then run_bitmap reqs' m log
          else
            m' <- Bitmap.free_contiguous m h size ;;
            run_bitmap reqs' m' log
      | None => run_bitmap reqs' m log
      end
  end.

Fixpoint run_list (fuel : nat) (reqs : list request) (st : LinkedList.pool)
  (log : list (Z * Z)) : outcome (list bool) :=
  match reqs with
  | [] => Done []
  | Allocate need :: reqs' =>
      r <- LinkedList.get_blocks fuel st need ;;
      let (st', h) := r in
      obs <- run_list fuel reqs' st' (log ++ [(h, need)]) ;;
      Done (succeeded LinkedList.NO_BLOCK h :: obs)
  | Release k :: reqs' =>
      match nth_error log k with
      | Some (h, _) =>
          if h =? LinkedList.NO_BLOCK then run_list fuel reqs' st log
          else
            st' <- LinkedList.release_blocks fuel st h ;;
            run_list fuel reqs' st' log
      | None => run_list fuel reqs' st log
      end
  end.

(** Both programs reset their pool and then serve the requests. *)
Definition bitmap_outcomes (reqs : list request) : outcome (list bool) :=
  run_bitmap reqs Bitmap.map_init [].

Definition list_outcomes (fuel : nat) (reqs : list request)
  : outcome (list bool) :=
  st <- LinkedList.setup LinkedList.initial ;;
  run_list fuel reqs st [].

(** The two pools after the same allocations and no release: the bitmap has
    exactly its first [k] blocks in use, and the free list holds the other
    [BLOCK_COUNT - k] blocks, in some order. *)
Definition in_step (k : Z) (m : Bitmap.bitmap) (st : LinkedList.pool) : Prop :=
  0 <= k <= Bitmap.BLOCK_COUNT /\
  Bitmap.wf_map m /\
  (forall i, Bitmap.valid i -> Bitmap.bit m i = (i <? k)) /\
  exists l, LinkedList.free_list st l /\
            Z.of_nat (length l) = Bitmap.BLOCK_COUNT - k.

End Driver.

(* ------------------------------------------------------------------ *)
(** ** Facts about arrays *)

Section ArrayFacts.

Lemma upd_length (a : list Z) (i : nat) (v : Z) : length (upd a i v) = length a.
Proof.
  revert i; induction a as [|h t IH]; intros [|i]; simpl; auto.
Qed.

Lemma nth_upd_same (a : list Z) (i : nat) (v d : Z) :
  (i < length a)%nat -> nth i (upd a i v) d = v.
Proof.
  revert i; induction a as [|h t IH]; intros [|i] Hi; simpl in *;
    try lia; auto.
  apply IH; lia.
Qed.

Lemma nth_upd_other (a : list Z) (i j : nat) (v d : Z) :
  i <> j -> nth j (upd a i v) d = nth j a d.
Proof.
  revert i j; induction a as [|h t IH]; intros [|i] [|j] Hij; simpl;
    try congruence; auto.
Qed.

Lemma Forall_upd (P : Z -> Prop) (a : list Z) (i : nat) (v : Z) :
  Forall P a -> P v -> Forall P (upd a i v).
Proof.
  intros Ha Hv; revert i.
  induction Ha as [|h t Hh Ht IH]; intros [|i]; simpl; auto.
Qed.

Lemma in_bounds_iff (a : list Z) (i : Z) :
  in_bounds a i = true <-> 0 <= i < Z.of_nat (length a).
Proof. unfold in_bounds; lia. Qed.

Lemma load_in (a : list Z) (i : Z) :
  0 <= i < Z.of_nat (length a) -> load a i = Done (nth (Z.to_nat i) a 0).
Proof.
  intros H; unfold load.
  now rewrite (proj2 (in_bounds_iff a i) H).
Qed.

Lemma store_in (a : list Z) (i v : Z) :
  0 <= i < Z.of_nat (length a) -> store a i v = Done (upd a (Z.to_nat i) v).
Proof.
  intros H; unfold store.
  now rewrite (proj2 (in_bounds_iff a i) H).
Qed.

End ArrayFacts.

(* ------------------------------------------------------------------ *)
(** ** Facts about the bitmap allocator *)

Module BitmapFacts.
Import Bitmap.

(** Case analysis on the integer comparisons of the goal. *)
Ltac zbool :=
  repeat match goal with
    | |- context [?a =? ?b] => destruct (Z.eqb_spec a b)
    | |- context [?a <=? ?b] => destruct (Z.leb_spec a b)
    | |- context [?a <? ?b] => destruct (Z.ltb_spec a b)
    end;
  simpl; try reflexivity; try lia.

Lemma valid_split (i : Z) :
  valid i ->
  i ÷ BITS_IN_BYTE = i / 8 /\ Z.rem i BITS_IN_BYTE = i mod 8 /\
  0 <= i / 8 < 8 /\ 0 <= i mod 8 < 8.
Proof.
  unfold valid, BLOCK_COUNT, BITS_IN_BYTE; intros H.
  rewrite Z.quot_div_nonneg, Z.rem_mod_nonneg by lia.
  repeat split; try apply Z.div_pos; try apply Z.mod_pos_bound; try lia.
  apply Z.div_lt_upper_bound; lia.
Qed.

Lemma wf_length (m : bitmap) : wf_map m -> Z.of_nat (length m) = 8.
Proof. intros [H _]; rewrite H; reflexivity. Qed.

Lemma wf_byte (m : bitmap) (k : Z) :
  wf_map m -> 0 <= k < 8 -> 0 <= nth (Z.to_nat k) m 0 < 256.
Proof.
  intros [Hl Hb] Hk.
  rewrite Forall_forall in Hb; apply Hb, nth_In.
  rewrite Hl; change (Z.to_nat MAP_SIZE) with 8%nat; lia.
Qed.

Lemma same_block (i j : Z) :
  i / 8 = j / 8 -> i mod 8 = j mod 8 -> i = j.
Proof.
  intros Hd Hm.
  rewrite (Z.div_mod i 8), (Z.div_mod j 8) by lia; congruence.
Qed.

Lemma mask_bit (k n : Z) :
  0 <= k -> Z.testbit (Z.shiftl 1 k) n = (k =? n).
Proof.
  intros Hk; rewrite Z.shiftl_1_l; now apply Z.pow2_bits_eqb.
Qed.

Lemma uint8_bit (x n : Z) :
  n < 8 -> Z.testbit (to_uint8 x) n = Z.testbit x n.
Proof.
  intros Hn; unfold to_uint8; change 256 with (2 ^ 8).
  now apply Z.mod_pow2_bits_low.
Qed.

Lemma uint8_range (x : Z) : 0 <= to_uint8 x < 256.
Proof. unfold to_uint8; apply Z.mod_pos_bound; lia. Qed.

Lemma land_mask_zero (b k : Z) :
  0 <= k -> (Z.land b (Z.shiftl 1 k) =? 0) = negb (Z.testbit b k).
Proof.
  intros Hk.
  destruct (Z.testbit b k) eqn:Hb; simpl.
  - apply Z.eqb_neq; intros H0.
    assert (Ht : Z.testbit (Z.land b (Z.shiftl 1 k)) k = true).
    { rewrite Z.land_spec, Hb, mask_bit, Z.eqb_refl by lia; reflexivity. }
    rewrite H0, Z.bits_0 in Ht; discriminate.
  - apply Z.eqb_eq, Z.bits_inj'; intros n Hn.
    rewrite Z.land_spec, mask_bit, Z.bits_0 by lia.
    destruct (Z.eqb_spec k n) as [->|]; [rewrite Hb|]; auto using andb_false_r.
Qed.

Lemma status_bit (m : bitmap) (i : Z) :
  wf_map m -> valid i -> check_block_status m i = Done (Z.b2z (bit m i)).
Proof.
  intros Hm Hi.
  destruct (valid_split i Hi) as (Hq & Hr & Hd & Hmod).
  unfold check_block_status, bit; rewrite Hq, Hr.
  rewrite load_in by (rewrite (wf_length m Hm); lia); simpl.
  replace ((0 <=? i mod 8) && (i mod 8 <? 32)) with true by lia.
  f_equal.
  change 1 with (Z.ones 1); rewrite Z.land_ones by lia.
  change (2 ^ 1) with 2; rewrite <- Z.bit0_mod, Z.shiftr_spec by lia.
  reflexivity.
Qed.

Lemma status_free (m : bitmap) (i : Z) :
  wf_map m -> valid i ->
  (check_block_status m i = Done 0 <-> bit m i = false).
Proof.
  intros Hm Hi; rewrite status_bit by assumption.
  destruct (bit m i); simpl; split; congruence.
Qed.

Lemma status_used (m : bitmap) (i : Z) :
  wf_map m -> valid i ->
  (check_block_status m i = Done 1 <-> bit m i = true).
Proof.
  intros Hm Hi; rewrite status_bit by assumption.
  destruct (bit m i); simpl; split; congruence.
Qed.

Lemma set_block_spec (m : bitmap) (i : Z) :
  wf_map m -> valid i ->
  exists m', set_block m i = Done m' /\ wf_map m' /\
             forall j, valid j -> bit m' j = (j =? i) || bit m j.
Proof.
  intros Hm Hi.
  destruct (valid_split i Hi) as (Hq & Hr & Hd & Hmod).
  pose proof (wf_length m Hm) as Hlen.
  unfold set_block; rewrite Hq, Hr.
  rewrite load_in by lia; simpl.
  unfold shl1; replace ((0 <=? i mod 8) && (i mod 8 <? 31)) with true by lia.
  simpl; rewrite store_in by lia.
  eexists; split; [reflexivity|]; split.
  - destruct Hm as [Hl Hb]; split.
    + now rewrite upd_length.
    + apply Forall_upd; [assumption | apply uint8_range].
  - intros j Hj; unfold bit.
    destruct (valid_split j Hj) as (_ & _ & Hjd & Hjm).
    destruct (Z.eq_dec (j / 8) (i / 8)) as [E|N].
    + rewrite E, nth_upd_same by lia.
      rewrite uint8_bit, Z.lor_spec, mask_bit by lia.
      rewrite orb_comm; f_equal.
      destruct (Z.eqb_spec (i mod 8) (j mod 8)) as [E2|N2];
        destruct (Z.eqb_spec j i) as [E3|N3]; auto.
      * elim N3; now apply same_block.
      * subst j; congruence.
    + rewrite nth_upd_other by lia.
      destruct (Z.eqb_spec j i) as [->|]; [congruence | reflexivity].
Qed.

Lemma clear_block_spec (m : bitmap) (i : Z) :
  wf_map m -> valid i ->
  exists m', clear_block m i = Done m' /\ wf_map m' /\
             forall j, valid j -> bit m' j = negb (j =? i) && bit m j.
Proof.
  intros Hm Hi.
  destruct (valid_split i Hi) as (Hq & Hr & Hd & Hmod).
  pose proof (wf_length m Hm) as Hlen.
  unfold clear_block; rewrite Hq, Hr.
  rewrite load_in by lia; simpl.
  unfold shl1; replace ((0 <=? i mod 8) && (i mod 8 <? 31)) with true by lia.
  simpl; rewrite store_in by lia.
  eexists; split; [reflexivity|]; split.
  - destruct Hm as [Hl Hb]; split.
    + now rewrite upd_length.
    + apply Forall_upd; [assumption | apply uint8_range].
  - intros j Hj; unfold bit.
    destruct (valid_split j Hj) as (_ & _ & Hjd & Hjm).
    destruct (Z.eq_dec (j / 8) (i / 8)) as [E|N].
    + rewrite E, nth_upd_same by lia.
      rewrite uint8_bit, Z.land_spec, Z.lnot_spec, mask_bit by lia.
      rewrite andb_comm; f_equal; f_equal.
      destruct (Z.eqb_spec (i mod 8) (j mod 8)) as [E2|N2];
        destruct (Z.eqb_spec j i) as [E3|N3]; auto.
      * elim N3; now apply same_block.
      * subst j; congruence.
    + rewrite nth_upd_other by lia.
      destruct (Z.eqb_spec j i) as [->|]; [congruence | reflexivity].
Qed.

(** A well-formed map is determined by the status of its 64 blocks. *)
Lemma bitmap_ext (m1 m2 : bitmap) :
  wf_map m1 -> wf_map m2 ->
  (forall i, valid i -> bit m1 i = bit m2 i) -> m1 = m2.
Proof.
  intros H1 H2 Hbits.
  apply (nth_ext m1 m2 0 0).
  - destruct H1 as [-> _], H2 as [-> _]; reflexivity.
  - intros n Hn.
    assert (Hk : 0 <= Z.of_nat n < 8) by (pose proof (wf_length m1 H1); lia).
    pose proof (wf_byte m1 _ H1 Hk) as B1.
    pose proof (wf_byte m2 _ H2 Hk) as B2.
    rewrite Nat2Z.id in B1, B2.
    apply Z.bits_inj'; intros b Hb.
    destruct (Z_lt_ge_dec b 8) as [Hlt|Hge].
    + specialize (Hbits (8 * Z.of_nat n + b)).
      unfold bit, valid, BLOCK_COUNT in Hbits.
      replace ((8 * Z.of_nat n + b) / 8) with (Z.of_nat n) in Hbits
        by (apply Z.div_unique with b; lia).
      replace ((8 * Z.of_nat n + b) mod 8) with b in Hbits
        by (apply Z.mod_unique with (Z.of_nat n); lia).
      rewrite Nat2Z.id in Hbits; apply Hbits; lia.
    + rewrite <- (Z.mod_small _ _ B1), <- (Z.mod_small _ _ B2).
      change 256 with (2 ^ 8).
      rewrite !Z.mod_pow2_bits_high by lia; reflexivity.
Qed.

Lemma mark_run_spec (n : nat) :
  forall m begin j,
    wf_map m -> 0 <= begin + j -> begin + j + Z.of_nat n <= BLOCK_COUNT ->
    exists m', mark_run n m begin j = Done m' /\
               marked m m' (begin + j) (Z.of_nat n).
Proof.
  induction n as [|n IH]; intros m begin j Hm Hlo Hhi.
  - exists m; split; [reflexivity|]; split; [assumption|].
    intros k _; zbool.
  - destruct (set_block_spec m (begin + j) Hm) as (m1 & E1 & W1 & B1).
    { unfold valid; lia. }
    destruct (IH m1 begin (j + 1) W1) as (m2 & E2 & W2 & B2); try lia.
    exists m2; split.
    + cbn [mark_run]; rewrite E1; exact E2.
    + split; [assumption|]; intros k Hk.
      rewrite B2, B1 by assumption.
      destruct (bit m k); zbool.
Qed.

Lemma free_loop_spec (n : nat) :
  forall m start i,
    wf_map m -> 0 <= start + i -> start + i + Z.of_nat n <= BLOCK_COUNT ->
    exists m', free_loop n m start i = Done m' /\
               cleared m m' (start + i) (Z.of_nat n).
Proof.
  induction n as [|n IH]; intros m start i Hm Hlo Hhi.
  - exists m; split; [reflexivity|]; split; [assumption|].
    intros k _; zbool.
  - destruct (clear_block_spec m (start + i) Hm) as (m1 & E1 & W1 & B1).
    { unfold valid; lia. }
    destruct (IH m1 start (i + 1) W1) as (m2 & E2 & W2 & B2); try lia.
    exists m2; split.
    + cbn [free_loop]; rewrite E1; exact E2.
    + split; [assumption|]; intros k Hk.
      rewrite B2, B1 by assumption.
      destruct (bit m k); zbool.
Qed.

Lemma run_free_iff (m : bitmap) (s need : Z) :
  wf_map m -> (run_free m s need <-> free_at m s need).
Proof.
  intros Hm; unfold run_free, free_at.
  split; intros (H0 & H1 & H2); repeat split; try assumption; intros j Hj.
  - apply (status_free m j Hm); [unfold valid; lia | auto].
  - apply (status_free m j Hm); [unfold valid; lia | auto].
Qed.

(** The scan, entered at block [i] with a current run of [seq] free blocks:
    either it commits the lowest free run, or it changes nothing and no free
    run exists. *)
Lemma scan_spec (n : nat) :
  forall m need i seq begin,
    wf_map m -> 1 <= need -> 0 <= i -> i + Z.of_nat n = BLOCK_COUNT ->
    0 <= seq < need -> seq <= i ->
    (0 < seq -> begin = i - seq) ->
    (forall j, i - seq <= j < i -> bit m j = false) ->
    (forall s, 0 <= s < i - seq -> ~ free_at m s need) ->
    (exists m' s0,
        scan n m need i seq begin = Done (m', s0) /\
        free_at m s0 need /\ (forall s, free_at m s need -> s0 <= s) /\
        marked m m' s0 need)
    \/ (scan n m need i seq begin = Done (m, -1) /\
        forall s, ~ free_at m s need).
Proof.
  induction n as [|n IH];
    intros m need i seq begin Hm Hneed Hi Hn Hseq Hsi Hbeg Hrun Hnone.
  - right; split; [reflexivity|].
    intros s (S0 & S1 & S2).
    apply (Hnone s); [lia | repeat split; assumption].
  - assert (Vi : valid i) by (unfold valid; lia).
    destruct (valid_split i Vi) as (Hq & Hr & Hd & Hmod).
    cbn [scan]; cbv zeta.
    rewrite Hq, Hr, load_in by (rewrite (wf_length m Hm); lia).
    unfold shl1; replace ((0 <=? i mod 8) && (i mod 8 <? 31)) with true by lia.
    cbn [bind]; rewrite land_mask_zero by lia.
    fold (bit m i).
    destruct (bit m i) eqn:Hbit; cbn [negb].
    + (* block [i] is used: the run is reset *)
      apply IH; try assumption; try lia.
      intros s Hs (S0 & S1 & S2).
      destruct (Z_lt_ge_dec s (i - seq)) as [Hlt|Hge].
      * apply (Hnone s); [lia | repeat split; assumption].
      * rewrite S2 in Hbit by lia; discriminate.
    + (* block [i] is free: the run grows *)
      assert (Hb1 : (if seq =? 0 then i else begin) = i - seq).
      { destruct (Z.eqb_spec seq 0); [lia | apply Hbeg; lia]. }
      rewrite Hb1.
      assert (Hfree : forall j, i - seq <= j < i + 1 -> bit m j = false).
      { intros j Hj; destruct (Z.eq_dec j i) as [->|]; [assumption|].
        apply Hrun; lia. }
      destruct (Z.eqb_spec (seq + 1) need) as [Hfull|Hnot].
      * left.
        destruct (mark_run_spec (Z.to_nat need) m (i - seq) 0 Hm)
          as (m' & E & M); try lia.
        rewrite Z2Nat.id, Z.add_0_r in M by lia.
        exists m', (i - seq); rewrite E; split; [reflexivity|].
        split; [|split; [|assumption]].
        -- repeat split; try lia. intros j Hj; apply Hfree; lia.
        -- intros s Hs.
           destruct (Z_lt_ge_dec s (i - seq)) as [Hlt|Hge]; [|lia].
           elim (Hnone s); [destruct Hs; lia | assumption].
      * replace (i - seq) with (i + 1 - (seq + 1)) by lia.
        apply IH; try assumption; try lia.
        -- intros j Hj; apply Hfree; lia.
        -- intros s Hs; apply Hnone; lia.
Qed.

(** [allocate_contiguous] on a well-formed map: a committed lowest free run,
    or nothing changed and no free run. *)
Lemma allocate_spec (m : bitmap) (need : Z) :
  wf_map m -> 1 <= need <= BLOCK_COUNT ->
  (exists m' s0,
      allocate_contiguous m need = Done (m', s0) /\
      free_at m s0 need /\ (forall s, free_at m s need -> s0 <= s) /\
      marked m m' s0 need)
  \/ (allocate_contiguous m need = Done (m, -1) /\
      forall s, ~ free_at m s need).
Proof.
  intros Hm Hneed; unfold allocate_contiguous.
  replace ((need <=? 0) || (need >? BLOCK_COUNT)) with false by lia.
  apply scan_spec; try assumption; try lia; reflexivity.
Qed.

Lemma allocate_invalid (m : bitmap) (need : Z) :
  need <= 0 \/ need > BLOCK_COUNT ->
  allocate_contiguous m need = Done (m, -1).
Proof.
  intros H; unfold allocate_contiguous.
  replace ((need <=? 0) || (need >? BLOCK_COUNT)) with true by lia.
  reflexivity.
Qed.

Lemma free_spec (m : bitmap) (start cnt : Z) :
  wf_map m -> 0 <= start -> 0 <= cnt -> start + cnt <= BLOCK_COUNT ->
  exists m', free_contiguous m start cnt = Done m' /\ cleared m m' start cnt.
Proof.
  intros Hm H0 H1 H2; unfold free_contiguous.
  destruct (free_loop_spec (Z.to_nat cnt) m start 0 Hm) as (m' & E & C);
    try lia.
  rewrite Z2Nat.id, Z.add_0_r in C by lia.
  exists m'; split; assumption.
Qed.

Lemma valid_range (s n i : Z) :
  0 <= s -> s + n <= BLOCK_COUNT -> s <= i < s + n -> valid i.
Proof. unfold valid; lia. Qed.

Lemma marked_status (m m' : bitmap) (s n : Z) :
  wf_map m -> marked m m' s n ->
  (forall i, valid i -> s <= i < s + n -> check_block_status m' i = Done 1) /\
  (forall i, valid i -> ~ (s <= i < s + n) ->
             check_block_status m' i = check_block_status m i).
Proof.
  intros Hm (Hm' & Hb); split; intros i Vi Hi.
  - apply status_used; try assumption.
    rewrite Hb by assumption.
    replace ((s <=? i) && (i <? s + n)) with true by lia; reflexivity.
  - rewrite !status_bit, Hb by assumption.
    replace ((s <=? i) && (i <? s + n)) with false by lia; reflexivity.
Qed.

Lemma cleared_status (m m' : bitmap) (s n : Z) :
  wf_map m -> cleared m m' s n ->
  (forall i, valid i -> s <= i < s + n -> check_block_status m' i = Done 0) /\
  (forall i, valid i -> ~ (s <= i < s + n) ->
             check_block_status m' i = check_block_status m i).
Proof.
  intros Hm (Hm' & Hb); split; intros i Vi Hi.
  - apply status_free; try assumption.
    rewrite Hb by assumption.
    replace ((s <=? i) && (i <? s + n)) with true by lia; reflexivity.
  - rewrite !status_bit, Hb by assumption.
    replace ((s <=? i) && (i <? s + n)) with false by lia; reflexivity.
Qed.

(** C1. First fit: when some run of [need] free blocks exists,
    [allocate_contiguous m need] returns the lowest start [s0] of such a
    run, afterwards exactly the blocks [s0 .. s0+need-1] have become used,
    and the status of every other block is what it was. *)
Theorem allocate_first_fit (m : bitmap) (need start : Z) :
  wf_map m -> 1 <= need <= BLOCK_COUNT -> run_free m start need ->
  exists m' s0,
    allocate_contiguous m need = Done (m', s0) /\
    run_free m s0 need /\
    (forall s, run_free m s need -> s0 <= s) /\
    (forall i, s0 <= i < s0 + need -> check_block_status m' i = Done 1) /\
    (forall i, 0 <= i < BLOCK_COUNT -> ~ (s0 <= i < s0 + need) ->
               check_block_status m' i = check_block_status m i).
Proof.
  intros Hm Hneed Hrun.
  destruct (allocate_spec m need Hm Hneed)
    as [(m' & s0 & E & F & L & M) | (_ & Hnone)].
  - exists m', s0; split; [assumption|].
    destruct (marked_status m m' s0 need Hm M) as (Hin & Hout).
    split; [|split; [|split]].
    + apply run_free_iff; assumption.
    + intros s Hs; apply L, run_free_iff; assumption.
    + intros i Hi; apply Hin; [|assumption].
      destruct F as (F0 & F1 & _); apply (valid_range s0 need); assumption.
    + intros i Hi; apply Hout; assumption.
  - elim (Hnone start); apply run_free_iff; assumption.
Qed.

Lemma allocate_first_fit_witness :
  let m := [255; 15; 0; 0; 0; 0; 0; 0] in
  wf_map m /\ run_free m 20 5 /\
  exists m' s0,
    allocate_contiguous m 5 = Done (m', s0) /\
    run_free m s0 5 /\
    (forall s, run_free m s 5 -> s0 <= s) /\
    (forall i, s0 <= i < s0 + 5 -> check_block_status m' i = Done 1) /\
    (forall i, 0 <= i < BLOCK_COUNT -> ~ (s0 <= i < s0 + 5) ->
               check_block_status m' i = check_block_status m i).
Proof.
  intros m.
  assert (Hm : wf_map m).
  { split; [reflexivity|]. repeat constructor; lia. }
  assert (Hrun : run_free m 20 5).
  { unfold run_free, BLOCK_COUNT; split; [lia|]; split; [lia|].
    intros i Hi.
    assert (Hc : i = 20 \/ i = 21 \/ i = 22 \/ i = 23 \/ i = 24) by lia.
    destruct Hc as [->|[->|[->|[->| ->]]]]; reflexivity. }
  split; [exact Hm|]; split; [exact Hrun|].
  apply (allocate_first_fit m 5 20 Hm); [unfold BLOCK_COUNT; lia | exact Hrun].
Defined.

(** Allocation followed by freeing the returned extent restores the map. *)
Lemma bitmap_round_trip (m m' : bitmap) (need h : Z) :
  wf_map m -> allocate_contiguous m need = Done (m', h) -> h <> -1 ->
  free_contiguous m' h need = Done m.
Proof.
  intros Hm E Hh.
  destruct (Z_le_gt_dec need 0) as [Hle|Hgt];
    [rewrite allocate_invalid in E by lia; congruence|].
  destruct (Z_le_gt_dec need BLOCK_COUNT) as [Hle|Hgt'];
    [|rewrite allocate_invalid in E by lia; congruence].
  destruct (allocate_spec m need Hm) as [(m1 & s0 & E1 & F & _ & M) | (E1 & _)];
    [lia| |congruence].
  rewrite E1 in E; injection E as -> ->.
  destruct F as (F0 & F1 & F2), M as (W1 & M).
  destruct (free_spec m' h need W1) as (m2 & E2 & W2 & C); try lia.
  rewrite E2; f_equal.
  apply bitmap_ext; try assumption.
  intros k Hk; rewrite C, M by assumption.
  destruct ((h <=? k) && (k <? h + need)) eqn:Hin; simpl; [|reflexivity].
  symmetry; apply F2; lia.
Qed.

(** C5, as amended.  The concrete scenario on a fully free pool of 64
    blocks: [allocate(12)] returns 0, then [allocate(5)] returns 12, and
    after [free(0, 12)], [allocate(20)] returns 17: the twelve blocks freed
    at the front are too few for a run of twenty, so the first fit starts
    right behind the five blocks still in use. *)
Theorem bitmap_scenario :
  exists m1 m2 m3 m4,
    allocate_contiguous map_init 12 = Done (m1, 0) /\
    allocate_contiguous m1 5 = Done (m2, 12) /\
    free_contiguous m2 0 12 = Done m3 /\
    allocate_contiguous m3 20 = Done (m4, 17).
Proof.
  exists [255; 15; 0; 0; 0; 0; 0; 0], [255; 255; 1; 0; 0; 0; 0; 0],
         [0; 240; 1; 0; 0; 0; 0; 0], [0; 240; 255; 255; 31; 0; 0; 0].
  repeat split; vm_compute; reflexivity.
Qed.

(** C5 as the specification words it (the last call returning 0) does not
    hold of the code. *)
Lemma scenario_last_start_not_zero :
  ~ exists m1 m2 m3 m4,
      allocate_contiguous map_init 12 = Done (m1, 0) /\
      allocate_contiguous m1 5 = Done (m2, 12) /\
      free_contiguous m2 0 12 = Done m3 /\
      allocate_contiguous m3 20 = Done (m4, 0).
Proof.
  intros (m1 & m2 & m3 & m4 & E1 & E2 & E3 & E4).
  vm_compute in E1; injection E1 as <-.
  vm_compute in E2; injection E2 as <-.
  vm_compute in E3; injection E3 as <-.
  vm_compute in E4; discriminate.
Qed.

(** C9. Freeing an in-range extent twice gives the map that freeing it once
    gives; after the call the blocks of the extent are free, blocks that
    were free before are still free, and no other block changed. *)
Theorem free_idempotent (m : bitmap) (start count : Z) :
  wf_map m -> 0 <= start -> 0 <= count -> start + count <= BLOCK_COUNT ->
  exists m1,
    free_contiguous m start count = Done m1 /\
    free_contiguous m1 start count = Done m1 /\
    (forall i, start <= i < start + count -> check_block_status m1 i = Done 0) /\
    (forall i, 0 <= i < BLOCK_COUNT -> check_block_status m i = Done 0 ->
               check_block_status m1 i = Done 0) /\
    (forall i, 0 <= i < BLOCK_COUNT -> ~ (start <= i < start + count) ->
               check_block_status m1 i = check_block_status m i).
Proof.
  intros Hm H0 H1 H2.
  destruct (free_spec m start count Hm H0 H1 H2) as (m1 & E1 & C1).
  destruct (free_spec m1 start count (proj1 C1) H0 H1 H2) as (m2 & E2 & C2).
  destruct (cleared_status m m1 start count Hm C1) as (Hin & Hout).
  exists m1; split; [assumption|]; split; [|split; [|split]].
  - rewrite E2; f_equal.
    destruct C1 as (W1 & B1), C2 as (W2 & B2).
    apply bitmap_ext; try assumption.
    intros k Hk; rewrite B2, B1 by assumption.
    destruct ((start <=? k) && (k <? start + count)); reflexivity.
  - intros i Hi; apply Hin; [|assumption].
    apply (valid_range start count); assumption.
  - intros i Hi Hfree.
    destruct C1 as (W1 & B1).
    apply status_free; try assumption.
    apply (status_free m i Hm Hi) in Hfree.
    rewrite B1, Hfree by assumption; apply andb_false_r.
  - intros i Hi Hn; apply Hout; assumption.
Qed.

Lemma free_idempotent_witness :
  let m := [255; 255; 1; 0; 0; 0; 0; 0] in
  wf_map m /\
  exists m1,
    free_contiguous m 3 10 = Done m1 /\
    free_contiguous m1 3 10 = Done m1 /\
    (forall i, 3 <= i < 3 + 10 -> check_block_status m1 i = Done 0) /\
    (forall i, 0 <= i < BLOCK_COUNT -> check_block_status m i = Done 0 ->
               check_block_status m1 i = Done 0) /\
    (forall i, 0 <= i < BLOCK_COUNT -> ~ (3 <= i < 3 + 10) ->
               check_block_status m1 i = check_block_status m i).
Proof.
  intros m.
  assert (Hm : wf_map m).
  { split; [reflexivity|]. repeat constructor; lia. }
  split; [exact Hm|].
  apply (free_idempotent m 3 10 Hm); unfold BLOCK_COUNT; lia.
Defined.

End BitmapFacts.

(* ------------------------------------------------------------------ *)
(** ** Facts about the linked free-list allocator *)

Module LinkedListFacts.
Import LinkedList.

Lemma nth_updZ_same (s : list Z) (x v : Z) :
  0 <= x < Z.of_nat (length s) ->
  nth (Z.to_nat x) (upd s (Z.to_nat x) v) 0 = v.
Proof. intros H; apply nth_upd_same; lia. Qed.

Lemma nth_updZ_other (s : list Z) (x y v : Z) :
  0 <= x -> 0 <= y -> x <> y ->
  nth (Z.to_nat y) (upd s (Z.to_nat x) v) 0 = nth (Z.to_nat y) s 0.
Proof. intros Hx Hy Hxy; apply nth_upd_other; lia. Qed.

Lemma in_bounds_length (s s' : list Z) (x : Z) :
  length s' = length s -> in_bounds s' x = in_bounds s x.
Proof. intros H; unfold in_bounds; now rewrite H. Qed.

Lemma lseg_hd (s : list Z) (h : Z) (l : list Z) (t : Z) :
  lseg s h l t -> h = hd t l.
Proof. destruct l; simpl; [auto | intros (H & _); exact H]. Qed.

Lemma lseg_bounds (s : list Z) (l : list Z) :
  forall h t, lseg s h l t ->
  forall x, In x l -> 0 <= x < Z.of_nat (length s).
Proof.
  induction l as [|a l IH]; simpl; intros h t H x Hx; [contradiction|].
  destruct H as (_ & Hb & Hl), Hx as [<-|Hx].
  - now apply in_bounds_iff.
  - eapply IH; eassumption.
Qed.

Lemma lseg_app (s : list Z) (l1 : list Z) :
  forall h l2 t,
    lseg s h (l1 ++ l2) t <-> exists m, lseg s h l1 m /\ lseg s m l2 t.
Proof.
  induction l1 as [|a l1 IH]; simpl; intros h l2 t.
  - split.
    + intros H; exists h; auto.
    + intros (m & -> & H); exact H.
  - split.
    + intros (Ha & Hb & H); apply IH in H as (m & H1 & H2).
      exists m; auto.
    + intros (m & (Ha & Hb & H1) & H2).
      repeat split; auto. apply IH; exists m; auto.
Qed.

Lemma lseg_frame (s s' : list Z) (l : list Z) :
  forall h t,
    length s' = length s ->
    (forall x, In x l -> nth (Z.to_nat x) s' 0 = nth (Z.to_nat x) s 0) ->
    lseg s h l t -> lseg s' h l t.
Proof.
  induction l as [|a l IH]; simpl; intros h t Hlen Hsame H; [assumption|].
  destruct H as (Ha & Hb & H); repeat split; auto.
  - now rewrite (in_bounds_length s s').
  - rewrite Hsame by auto. apply IH; auto.
Qed.

Lemma lseg_outside (l : list Z) (s s' : list Z) (k : list Z) :
  forall h t,
    same_outside l s s' -> (forall x, In x k -> ~ In x l) ->
    lseg s h k t -> lseg s' h k t.
Proof.
  intros h t (Hlen & Hsame) Hdisj H.
  apply (lseg_frame s s'); auto.
  intros x Hx; apply Hsame; [|auto].
  apply (lseg_bounds s k h t H x Hx).
Qed.

Lemma lseg_det (s : list Z) (l1 : list Z) :
  forall h l2,
    lseg s h l1 NO_BLOCK -> lseg s h l2 NO_BLOCK -> l1 = l2.
Proof.
  unfold NO_BLOCK.
  induction l1 as [|a l1 IH]; intros h [|b l2]; simpl; auto.
  - intros -> (<- & Hb & _); apply in_bounds_iff in Hb; lia.
  - intros (<- & Hb & _) ->; apply in_bounds_iff in Hb; lia.
  - intros (<- & _ & H1) (<- & _ & H2); f_equal; eapply IH; eassumption.
Qed.

Lemma lseg_NoDup (s : list Z) (l : list Z) :
  forall h, lseg s h l NO_BLOCK -> NoDup l.
Proof.
  induction l as [|a l IH]; intros h H; constructor.
  - destruct H as (_ & _ & H); intros Hin.
    apply in_split in Hin as (l1 & l2 & ->).
    pose proof H as H'.
    apply lseg_app in H' as (m & _ & _ & _ & H2).
    pose proof (lseg_det _ _ _ _ H H2) as E.
    apply (f_equal (@length Z)) in E.
    rewrite length_app in E; simpl in E; lia.
  - destruct H as (_ & _ & H); eapply IH; eassumption.
Qed.

Lemma blocks_length : length blocks = Z.to_nat MAX_BLOCKS.
Proof. reflexivity. Qed.

Lemma in_blocks (x : Z) : In x blocks <-> 0 <= x < MAX_BLOCKS.
Proof.
  unfold blocks; rewrite in_map_iff; split.
  - intros (n & <- & Hn); apply in_seq in Hn.
    unfold MAX_BLOCKS in *; lia.
  - intros Hx; exists (Z.to_nat x); split; [lia|].
    apply in_seq; unfold MAX_BLOCKS in *; lia.
Qed.

(** A free list never holds more than [MAX_BLOCKS] blocks. *)
Lemma free_list_length (st : pool) (l : list Z) :
  free_list st l -> (length l <= Z.to_nat MAX_BLOCKS)%nat.
Proof.
  intros (Hlen & H).
  rewrite <- blocks_length.
  apply NoDup_incl_length; [eapply lseg_NoDup; exact H|].
  intros x Hx; apply in_blocks.
  pose proof (lseg_bounds _ _ _ _ H x Hx) as Hb.
  rewrite Hlen in Hb; unfold MAX_BLOCKS in *; lia.
Qed.

Lemma get_one_block_empty (st : pool) :
  free_start st = NO_BLOCK -> get_one_block st = Done (st, NO_BLOCK).
Proof. intros H; unfold get_one_block; rewrite H; reflexivity. Qed.

Lemma get_one_block_cons (s : list Z) (fs x : Z) (rs : list Z) :
  lseg s fs (x :: rs) NO_BLOCK ->
  get_one_block (mkPool s fs) =
  Done (mkPool (upd s (Z.to_nat x) NO_BLOCK) (nth (Z.to_nat x) s 0), x).
Proof.
  intros (-> & Hb & _); unfold get_one_block; simpl.
  pose proof (proj1 (in_bounds_iff _ _) Hb) as Hx.
  replace (x =? NO_BLOCK) with false by (unfold NO_BLOCK; lia).
  rewrite load_in, store_in by assumption; reflexivity.
Qed.

Lemma NoDup_app_inv (l1 l2 : list Z) :
  NoDup (l1 ++ l2) ->
  NoDup l1 /\ NoDup l2 /\ forall x, In x l1 -> ~ In x l2.
Proof.
  intros H; split; [|split].
  - eapply NoDup_app_remove_r; eassumption.
  - eapply NoDup_app_remove_l; eassumption.
  - induction l1 as [|a l1 IH]; simpl in *; [contradiction|].
    apply NoDup_cons_iff in H as (Ha & H).
    intros x [<-|Hx] Hx2.
    + apply Ha, in_app_iff; auto.
    + exact (IH H x Hx Hx2).
Qed.

Lemma lseg_upd (s : list Z) (l : list Z) (h t x v : Z) :
  0 <= x -> ~ In x l -> lseg s h l t -> lseg (upd s (Z.to_nat x) v) h l t.
Proof.
  intros Hx Hn H.
  apply (lseg_frame s); [apply upd_length | | assumption].
  intros y Hy; apply nth_updZ_other; try assumption.
  - apply (lseg_bounds _ _ _ _ H y Hy).
  - intros ->; contradiction.
Qed.

Lemma same_outside_refl (l s : list Z) : same_outside l s s.
Proof. split; auto. Qed.

Lemma same_outside_trans (l s1 s2 s3 : list Z) :
  same_outside l s1 s2 -> same_outside l s2 s3 -> same_outside l s1 s3.
Proof.
  intros (L1 & H1) (L2 & H2); split; [congruence|].
  intros y Hy Hn; rewrite H2, H1; auto.
Qed.

Lemma same_outside_upd (l s : list Z) (x v : Z) :
  In x l -> 0 <= x -> same_outside l s (upd s (Z.to_nat x) v).
Proof.
  intros Hin Hx; split; [apply upd_length|].
  intros y Hy Hn; apply nth_updZ_other; try assumption.
  intros ->; contradiction.
Qed.

Lemma same_outside_incl (l l' s s' : list Z) :
  incl l l' -> same_outside l s s' -> same_outside l' s s'.
Proof.
  intros Hi (L & H); split; [assumption|].
  intros y Hy Hn; apply H; auto.
Qed.

(** One successful iteration of the loop of [get_blocks]: the head [x] of
    the free list moves to the end of the chain under construction. *)
Lemma loop_step (fuel n : nat) (s : list Z) (fs first prev x : Z)
  (tk rs : list Z) :
  building s fs first prev tk (x :: rs) ->
  exists s2 first2,
    get_blocks_loop fuel (S n) (mkPool s fs) first prev =
    get_blocks_loop fuel n (mkPool s2 (nth (Z.to_nat x) s 0)) first2 x /\
    building s2 (nth (Z.to_nat x) s 0) first2 x (tk ++ [x]) rs /\
    same_outside (tk ++ x :: rs) s s2.
Proof.
  intros (ND & Hfree & Htk & Hprev).
  pose proof (lseg_bounds _ _ _ _ Hfree x (or_introl eq_refl)) as Bx.
  destruct (NoDup_app_inv _ _ ND) as (ND1 & ND2 & Hdisj).
  apply NoDup_cons_iff in ND2 as (Hxrs & ND2).
  assert (Hxtk : ~ In x tk) by (intros H; apply (Hdisj x H); left; reflexivity).
  assert (ND' : NoDup ((tk ++ [x]) ++ rs))
    by (rewrite <- app_assoc; exact ND).
  cbn [get_blocks_loop].
  rewrite (get_one_block_cons s fs x rs Hfree); cbn [bind].
  replace (x =? NO_BLOCK) with false by (unfold NO_BLOCK; lia).
  destruct Hfree as (_ & Hbx & Hrs).
  set (s1 := upd s (Z.to_nat x) NO_BLOCK).
  assert (L1 : length s1 = length s) by apply upd_length.
  assert (N1 : nth (Z.to_nat x) s1 0 = NO_BLOCK)
    by (apply nth_updZ_same; assumption).
  induction tk as [|a tk' _] using rev_ind.
  - (* first block of the chain *)
    simpl in Hprev; subst prev; cbn [negb Z.eqb NO_BLOCK].
    exists s1, x; split; [reflexivity|]; split.
    + repeat split; try assumption.
      * apply lseg_upd; [lia | assumption | assumption].
      * now rewrite (in_bounds_length s s1).
    + apply same_outside_upd; [left; reflexivity | lia].
  - (* the chain already ends in [a] *)
    rewrite last_last in Hprev; subst prev.
    apply lseg_app in Htk as (m & Htk0 & -> & Hba & Hna).
    pose proof (proj1 (in_bounds_iff _ _) Hba) as Ba.
    assert (Hax : a <> x) by (intros ->; apply Hxtk, in_app_iff; right;
                              left; reflexivity).
    destruct (NoDup_app_inv _ _ ND1) as (_ & _ & Hdisj0).
    replace (negb (a =? NO_BLOCK)) with true by (unfold NO_BLOCK; lia).
    cbn [storage free_start].
    rewrite store_in by (rewrite L1; assumption); cbn [bind].
    set (s2 := upd s1 (Z.to_nat a) x).
    assert (L2 : length s2 = length s) by (unfold s2; now rewrite upd_length).
    exists s2, first; split; [reflexivity|]; split.
    + repeat split; try assumption.
      * apply lseg_upd; [lia | | apply lseg_upd; [lia | assumption | assumption]].
        intros H; apply (Hdisj a); [apply in_app_iff; right; left; reflexivity|].
        right; assumption.
      * rewrite <- app_assoc; apply lseg_app; exists a; split.
        -- apply lseg_upd; [lia | | apply lseg_upd; [lia | | assumption]].
           ++ intros H; apply (Hdisj0 a H); left; reflexivity.
           ++ intros H; apply Hxtk, in_app_iff; left; assumption.
        -- simpl; repeat split.
           ++ now rewrite (in_bounds_length s s2).
           ++ unfold s2; rewrite nth_updZ_same by (rewrite L1; assumption).
              reflexivity.
           ++ now rewrite (in_bounds_length s s2).
           ++ unfold s2; rewrite nth_updZ_other by lia. exact N1.
      * now rewrite last_last.
    + apply (same_outside_trans _ s s1 s2).
      * apply same_outside_upd; [|lia].
        apply in_app_iff; right; left; reflexivity.
      * apply same_outside_upd; [|lia].
        apply in_app_iff; left; apply in_app_iff; right; left; reflexivity.
Qed.

(** The loop of [get_blocks] when the free list holds enough blocks. *)
Lemma loop_success (fuel n : nat) :
  forall s fs first prev tk rs,
    building s fs first prev tk rs -> (n <= length rs)%nat ->
    exists s',
      get_blocks_loop fuel n (mkPool s fs) first prev =
      Done (mkPool s' (hd NO_BLOCK (skipn n rs)),
            hd NO_BLOCK (tk ++ firstn n rs)) /\
      lseg s' (hd NO_BLOCK (tk ++ firstn n rs)) (tk ++ firstn n rs) NO_BLOCK /\
      lseg s' (hd NO_BLOCK (skipn n rs)) (skipn n rs) NO_BLOCK /\
      same_outside (tk ++ rs) s s'.
Proof.
  induction n as [|n IH]; intros s fs first prev tk rs B Hn.
  - destruct B as (ND & Hfree & Htk & Hprev).
    exists s; simpl; rewrite app_nil_r.
    rewrite <- (lseg_hd _ _ _ _ Hfree), <- (lseg_hd _ _ _ _ Htk).
    repeat split; auto.
  - destruct rs as [|x rs]; simpl in Hn; [lia|].
    destruct (loop_step fuel n s fs first prev x tk rs B)
      as (s2 & first2 & E & B2 & O2).
    destruct (IH s2 _ first2 x (tk ++ [x]) rs B2) as (s' & E' & C & F & O');
      [lia|].
    rewrite <- app_assoc in E', C, O'; simpl in E', C, O'.
    exists s'; rewrite E; simpl.
    split; [assumption|]; split; [assumption|]; split; [assumption|].
    apply (same_outside_trans _ s s2 s'); assumption.
Qed.

(** The roll-back loop puts the chain [tk] back in front of the free list,
    one block at a time, which reverses it. *)
Lemma give_back_spec (tk : list Z) :
  forall fuel s fs first acc,
    lseg s first tk NO_BLOCK -> lseg s fs acc NO_BLOCK ->
    NoDup (tk ++ acc) -> (length tk <= fuel)%nat ->
    exists s',
      give_back fuel (mkPool s fs) first =
      Done (mkPool s' (hd NO_BLOCK (rev tk ++ acc))) /\
      lseg s' (hd NO_BLOCK (rev tk ++ acc)) (rev tk ++ acc) NO_BLOCK /\
      same_outside tk s s'.
Proof.
  induction tk as [|x tk IH]; intros fuel s fs first acc Htk Hacc ND Hfuel.
  - simpl in Htk; subst first.
    exists s; simpl; rewrite <- (lseg_hd _ _ _ _ Hacc).
    repeat split; auto.
    destruct fuel; reflexivity.
  - destruct fuel as [|fuel]; simpl in Hfuel; [lia|].
    destruct Htk as (-> & Hbx & Htk).
    pose proof (proj1 (in_bounds_iff _ _) Hbx) as Bx.
    simpl in ND; apply NoDup_cons_iff in ND as (Hx & ND).
    cbn [give_back storage free_start].
    replace (x =? NO_BLOCK) with false by (unfold NO_BLOCK; lia).
    rewrite load_in, store_in by assumption; cbn [bind].
    set (s1 := upd s (Z.to_nat x) fs).
    destruct (IH fuel s1 x (nth (Z.to_nat x) s 0) (x :: acc))
      as (s' & E & C & O).
    + apply lseg_upd; [lia | | assumption].
      intros H; apply Hx, in_app_iff; left; assumption.
    + simpl; repeat split.
      * now rewrite (in_bounds_length s s1) by apply upd_length.
      * unfold s1; rewrite nth_updZ_same by assumption.
        apply lseg_upd; [lia | | assumption].
        intros H; apply Hx, in_app_iff; right; assumption.
    + apply NoDup_app_inv in ND as (N1 & N2 & N3).
      apply NoDup_app; [assumption | | ].
      * constructor; [|assumption].
        intros H; apply Hx, in_app_iff; right; assumption.
      * intros y Hy [<-|Hy2]; [|exact (N3 y Hy Hy2)].
        apply Hx, in_app_iff; left; assumption.
    + lia.
    + exists s'; simpl; rewrite <- app_assoc; simpl.
      split; [assumption|]; split; [assumption|].
      apply (same_outside_trans _ s s1 s').
      * apply same_outside_upd; [left; reflexivity | lia].
      * apply (same_outside_incl tk); [|assumption].
        intros y Hy; right; assumption.
Qed.

(** The loop of [get_blocks] when the free list is too short: everything
    taken is given back, and the free list ends up reversed. *)
Lemma loop_failure (fuel : nat) (rs : list Z) :
  forall n s fs first prev tk,
    building s fs first prev tk rs -> (length rs < n)%nat ->
    (length (tk ++ rs) <= fuel)%nat ->
    exists s',
      get_blocks_loop fuel n (mkPool s fs) first prev =
      Done (mkPool s' (hd NO_BLOCK (rev (tk ++ rs))), NO_BLOCK) /\
      lseg s' (hd NO_BLOCK (rev (tk ++ rs))) (rev (tk ++ rs)) NO_BLOCK /\
      same_outside (tk ++ rs) s s'.
Proof.
  induction rs as [|x rs IH]; intros n s fs first prev tk B Hn Hfuel;
    (destruct n as [|n]; [simpl in Hn; lia|]).
  - destruct B as (ND & Hfree & Htk & Hprev).
    simpl in Hfree; subst fs.
    rewrite app_nil_r in *.
    cbn [get_blocks_loop].
    rewrite get_one_block_empty by reflexivity; cbn [bind Z.eqb NO_BLOCK].
    destruct (give_back_spec tk fuel s NO_BLOCK first [] Htk)
      as (s' & E & C & O); try assumption.
    + reflexivity.
    + now rewrite app_nil_r.
    + rewrite app_nil_r in E, C.
      exists s'; unfold NO_BLOCK in *; rewrite E; auto.
  - destruct (loop_step fuel n s fs first prev x tk rs B)
      as (s2 & first2 & E & B2 & O2).
    destruct (IH n s2 _ first2 x (tk ++ [x]) B2) as (s' & E' & C & O').
    + simpl in Hn; lia.
    + rewrite <- app_assoc; exact Hfuel.
    + rewrite <- app_assoc in E', C, O'; simpl in E', C, O'.
      exists s'; rewrite E.
      split; [assumption|]; split; [assumption|].
      apply (same_outside_trans _ s s2 s'); assumption.
Qed.

Lemma free_list_building (st : pool) (l : list Z) :
  free_list st l ->
  building (storage st) (free_start st) NO_BLOCK NO_BLOCK [] l.
Proof.
  intros (_ & H); repeat split; simpl; auto.
  eapply lseg_NoDup; exact H.
Qed.

(** [get_blocks] on a free list that holds at least [need] blocks. *)
Lemma get_blocks_success (fuel : nat) (st : pool) (l : list Z) (need : Z) :
  free_list st l -> 1 <= need <= Z.of_nat (length l) ->
  exists st',
    get_blocks fuel st need = Done (st', free_start st) /\
    chain st' (free_start st) (firstn (Z.to_nat need) l) /\
    free_list st' (skipn (Z.to_nat need) l) /\
    same_outside l (storage st) (storage st').
Proof.
  intros Hfl Hneed.
  pose proof (free_list_building st l Hfl) as B.
  destruct Hfl as (Hlen & Hl).
  destruct (loop_success fuel (Z.to_nat need) _ _ _ _ _ _ B)
    as (s' & E & C & F & O); [lia|].
  simpl in E, C, O.
  assert (Hhd : hd NO_BLOCK (firstn (Z.to_nat need) l) = free_start st).
  { rewrite (lseg_hd _ _ _ _ Hl).
    destruct l as [|x l]; simpl in *; [lia|].
    destruct (Z.to_nat need) eqn:En; [lia | reflexivity]. }
  rewrite Hhd in E, C.
  exists (mkPool s' (hd NO_BLOCK (skipn (Z.to_nat need) l))).
  unfold get_blocks; replace (need <=? 0) with false by lia.
  destruct st as [s fs]; simpl in *.
  split; [exact E|]; split; [exact C|]; split; [|exact O].
  split; simpl; [|exact F].
  destruct O as (O & _); congruence.
Qed.

(** [get_blocks] on a free list that holds fewer than [need] blocks. *)
Lemma get_blocks_failure (fuel : nat) (st : pool) (l : list Z) (need : Z) :
  free_list st l -> Z.of_nat (length l) < need -> (length l <= fuel)%nat ->
  exists st',
    get_blocks fuel st need = Done (st', NO_BLOCK) /\
    free_list st' (rev l) /\
    same_outside l (storage st) (storage st').
Proof.
  intros Hfl Hneed Hfuel.
  pose proof (free_list_building st l Hfl) as B.
  destruct Hfl as (Hlen & Hl).
  destruct (loop_failure fuel l (Z.to_nat need) _ _ _ _ _ B)
    as (s' & E & C & O); [lia | exact Hfuel |].
  simpl in E, C, O.
  exists (mkPool s' (hd NO_BLOCK (rev l))).
  unfold get_blocks; replace (need <=? 0) with false by lia.
  destruct st as [s fs]; simpl in *.
  split; [exact E|]; split; [|exact O].
  split; simpl; [|exact C].
  destruct O as (O & _); congruence.
Qed.

Lemma get_blocks_invalid (fuel : nat) (st : pool) (num : Z) :
  num <= 0 -> get_blocks fuel st num = Done (st, NO_BLOCK).
Proof.
  intros H; unfold get_blocks.
  replace (num <=? 0) with true by lia; reflexivity.
Qed.

Lemma free_list_head (st : pool) (l : list Z) :
  free_list st l -> l <> [] -> free_start st <> NO_BLOCK.
Proof.
  intros (_ & H) Hne; destruct l as [|x l]; [congruence|].
  destruct H as (-> & Hb & _).
  apply in_bounds_iff in Hb; unfold NO_BLOCK; lia.
Qed.

(** [setup] resets every pool of [MAX_BLOCKS] nodes to the same state. *)
Lemma setup_resets (st : pool) :
  length (storage st) = Z.to_nat MAX_BLOCKS -> setup st = Done fresh.
Proof.
  destruct st as [s fs]; cbn [storage]; intros Hlen.
  do 64 (destruct s as [|? s]; [discriminate Hlen|]).
  destruct s; [reflexivity | discriminate Hlen].
Qed.

Lemma fresh_free_list : free_list fresh blocks.
Proof.
  split; [reflexivity|].
  unfold chain, fresh, blocks; simpl.
  repeat split.
Qed.

Lemma setup_initial : setup initial = Done fresh.
Proof. reflexivity. Qed.

(** C10. When the free list holds at least [need] blocks, [get_blocks]
    succeeds and returns the old [free_start]; the chain handed out is the
    first [need] blocks of the old free list, linked in the order they were
    popped and closed by the sentinel, and the new free list is the old one
    without those blocks. *)
Theorem get_blocks_takes_prefix (fuel : nat) (st : pool) (l : list Z)
  (need : Z) :
  free_list st l -> 1 <= need <= Z.of_nat (length l) ->
  exists st',
    get_blocks fuel st need = Done (st', free_start st) /\
    free_start st = hd NO_BLOCK l /\
    chain st' (free_start st) (firstn (Z.to_nat need) l) /\
    free_list st' (skipn (Z.to_nat need) l).
Proof.
  intros Hfl Hneed.
  destruct (get_blocks_success fuel st l need Hfl Hneed) as (st' & E & C & F & _).
  exists st'; repeat split; try assumption; try apply F.
  destruct Hfl as (_ & H); apply (lseg_hd _ _ _ _ H).
Qed.

Lemma get_blocks_takes_prefix_witness :
  free_list fresh blocks /\
  exists st',
    get_blocks 0 fresh 3 = Done (st', free_start fresh) /\
    free_start fresh = hd NO_BLOCK blocks /\
    chain st' (free_start fresh) (firstn (Z.to_nat 3) blocks) /\
    free_list st' (skipn (Z.to_nat 3) blocks).
Proof.
  split; [exact fresh_free_list|].
  apply (get_blocks_takes_prefix 0 fresh blocks 3 fresh_free_list).
  simpl; lia.
Defined.

Lemma member_In (l : list Z) (i : Z) : member l i = true <-> In i l.
Proof.
  unfold member; rewrite existsb_exists; split.
  - intros (x & Hx & E); apply Z.eqb_eq in E; subst; assumption.
  - intros H; exists i; split; [assumption | apply Z.eqb_refl].
Qed.

Lemma member_same (l l' : list Z) (i : Z) :
  (In i l' <-> In i l) -> member l' i = member l i.
Proof.
  intros H.
  destruct (member l i) eqn:E.
  - apply member_In, H, member_In, E.
  - destruct (member l' i) eqn:E'; [|reflexivity].
    apply member_In, H, member_In in E'; congruence.
Qed.

Lemma upd_nth (a : list Z) (i : nat) (d : Z) : upd a i (nth i a d) = a.
Proof.
  revert i; induction a as [|h t IH]; intros [|i]; simpl; auto.
  now rewrite IH.
Qed.

Lemma isfree_spec (l : list Z) :
  forall fuel s cur i,
    lseg s cur l NO_BLOCK -> (length l <= fuel)%nat ->
    isfree fuel s cur i = Done (if member l i then 1 else 0).
Proof.
  induction l as [|x l IH]; intros fuel s cur i H Hfuel.
  - simpl in H; subst cur; destruct fuel; reflexivity.
  - destruct H as (-> & Hb & H).
    pose proof (proj1 (in_bounds_iff _ _) Hb) as Bx.
    assert (Hx : (x =? NO_BLOCK) = false) by (unfold NO_BLOCK; lia).
    unfold member; simpl existsb; rewrite (Z.eqb_sym i x).
    destruct (x =? i) eqn:Exi.
    + destruct fuel; simpl; rewrite Hx, Exi; reflexivity.
    + destruct fuel as [|fuel]; simpl in Hfuel; [lia|].
      simpl; rewrite Hx, Exi, load_in by assumption.
      apply IH; [assumption | lia].
Qed.

Lemma clear_status_spec (l : list Z) :
  forall fuel s cur,
    lseg s cur l NO_BLOCK -> (length l <= fuel)%nat ->
    length s = Z.to_nat MAX_BLOCKS ->
    clear_status fuel s (repeat 0 (Z.to_nat MAX_BLOCKS)) cur =
    Done (repeat 0 (Z.to_nat MAX_BLOCKS)).
Proof.
  induction l as [|x l IH]; intros fuel s cur H Hfuel Hlen.
  - simpl in H; subst cur; destruct fuel; reflexivity.
  - destruct H as (-> & Hb & H).
    pose proof (proj1 (in_bounds_iff _ _) Hb) as Bx.
    destruct fuel as [|fuel]; simpl in Hfuel; [lia|].
    cbn [clear_status].
    replace (x =? NO_BLOCK) with false by (unfold NO_BLOCK; lia).
    rewrite store_in by (rewrite repeat_length, <- Hlen; assumption).
    rewrite load_in by assumption; cbn [bind].
    rewrite <- (nth_repeat 0 (Z.to_nat MAX_BLOCKS) (Z.to_nat x)) at 2.
    rewrite upd_nth.
    apply IH; [assumption | lia | assumption].
Qed.

Lemma display_loop_spec (fuel : nat) (st : pool) (l : list Z) (n : nat) :
  forall i : nat,
    free_list st l -> (length l <= fuel)%nat ->
    (i + n <= Z.to_nat MAX_BLOCKS)%nat ->
    display_loop fuel n st (repeat 0 (Z.to_nat MAX_BLOCKS)) (Z.of_nat i) =
    Done (map (fun j => if member l j then 0 else 1)
              (map Z.of_nat (seq i n))).
Proof.
  induction n as [|n IH]; intros i Hfl Hfuel Hi; [reflexivity|].
  cbn [display_loop].
  rewrite load_in by (rewrite repeat_length; lia).
  rewrite nth_repeat; cbn [bind Z.eqb].
  rewrite (isfree_spec l) by (try apply Hfl; assumption).
  cbn [bind].
  replace (Z.of_nat i + 1) with (Z.of_nat (S i)) by lia.
  rewrite IH by (try assumption; lia).
  simpl; destruct (member l (Z.of_nat i)); reflexivity.
Qed.

(** [display_state] prints 0 for the blocks on the free list and 1 for all
    other blocks. *)
Lemma display_state_spec (fuel : nat) (st : pool) (l : list Z) :
  free_list st l -> (length l <= fuel)%nat ->
  display_state fuel st =
  Done (map (fun j => if member l j then 0 else 1) blocks).
Proof.
  intros Hfl Hfuel; unfold display_state.
  rewrite (clear_status_spec l) by (try apply Hfl; assumption).
  cbn [bind].
  apply (display_loop_spec fuel st l _ 0%nat); auto.
Qed.

Lemma display_state_same (fuel : nat) (st st' : pool) (l l' : list Z) :
  free_list st l -> free_list st' l' ->
  (length l <= fuel)%nat -> (length l' <= fuel)%nat ->
  (forall i, In i l' <-> In i l) ->
  display_state fuel st' = display_state fuel st.
Proof.
  intros Hfl Hfl' Hf Hf' Hsame.
  rewrite (display_state_spec fuel st l), (display_state_spec fuel st' l')
    by assumption.
  f_equal; apply map_ext; intros j.
  now rewrite (member_same l l' j (Hsame j)).
Qed.

(** The walk of [release_blocks] over a chain of two or more blocks stops
    with [last] on the block before the final one. *)
Lemma find_last_long (l : list Z) :
  forall fuel s cur last y z,
    lseg s cur (l ++ [y; z]) NO_BLOCK -> (length l < fuel)%nat ->
    find_last fuel s cur last = Done y.
Proof.
  induction l as [|a l IH]; intros fuel s cur last y z H Hfuel;
    (destruct fuel as [|fuel]; [lia|]).
  - destruct H as (-> & Hby & Eyz & Hbz & Hz).
    pose proof (proj1 (in_bounds_iff _ _) Hby) as By.
    pose proof (proj1 (in_bounds_iff _ _) Hbz) as Bz.
    simpl in Hz.
    cbn [find_last]; rewrite load_in by assumption; cbn [bind].
    rewrite Eyz.
    replace (z =? NO_BLOCK) with false by (unfold NO_BLOCK; lia).
    destruct fuel; cbn [find_last]; rewrite load_in by assumption;
      cbn [bind]; rewrite Hz; reflexivity.
  - simpl in H; destruct H as (-> & Hba & H).
    pose proof (proj1 (in_bounds_iff _ _) Hba) as Ba.
    assert (Hn : nth (Z.to_nat a) s 0 <> NO_BLOCK).
    { rewrite (lseg_hd _ _ _ _ H).
      pose proof (lseg_bounds _ _ _ _ H) as Hb.
      destruct l as [|b l]; simpl in *;
        [specialize (Hb y) | specialize (Hb b)];
        unfold NO_BLOCK; intros E; rewrite E in Hb;
        assert (0 <= -1 < Z.of_nat (length s)) by (apply Hb; auto); lia. }
    cbn [find_last]; rewrite load_in by assumption; cbn [bind].
    apply Z.eqb_neq in Hn; rewrite Hn.
    apply (IH fuel s _ a y z H); simpl in Hfuel; lia.
Qed.

(** What [release_blocks] does to a chain of two or more blocks: the free
    list receives every block of the chain but the last one, [z], which
    ends up on no list at all. *)
Lemma release_blocks_long (fuel : nat) (st : pool) (h y z : Z)
  (l fl : list Z) :
  free_list st fl -> chain st h (l ++ [y; z]) ->
  NoDup ((l ++ [y; z]) ++ fl) -> (length l < fuel)%nat ->
  exists st',
    release_blocks fuel st h = Done st' /\
    free_list st' (l ++ y :: fl) /\ ~ In z (l ++ y :: fl).
Proof.
  intros (Hlen & Hfl) Hch ND Hfuel; unfold chain in *.
  pose proof (lseg_bounds _ _ _ _ Hch) as Hb.
  assert (By : 0 <= y < Z.of_nat (length (storage st)))
    by (apply Hb, in_app_iff; right; left; reflexivity).
  assert (Hh : h <> NO_BLOCK).
  { rewrite (lseg_hd _ _ _ _ Hch).
    destruct l as [|b l]; simpl in *;
      [specialize (Hb y) | specialize (Hb b)];
      unfold NO_BLOCK; intros E; rewrite E in Hb;
      assert (0 <= -1 < Z.of_nat (length (storage st))) by (apply Hb; auto);
      lia. }
  rewrite <- app_assoc in ND.
  destruct (NoDup_app_inv _ _ ND) as (NDl & ND2 & D1).
  simpl in ND2.
  apply NoDup_cons_iff in ND2 as (Hy & ND2).
  apply NoDup_cons_iff in ND2 as (Hz & NDfl).
  unfold release_blocks; apply Z.eqb_neq in Hh; rewrite Hh.
  rewrite (find_last_long l fuel _ h h y z Hch Hfuel); cbn [bind].
  rewrite store_in by assumption; cbn [bind].
  eexists; split; [reflexivity|]; split.
  - split; cbn [storage free_start]; [now rewrite upd_length|].
    apply lseg_app in Hch as (m & Hl & Hyz).
    unfold chain; cbn [storage free_start].
    apply lseg_app; exists m; split.
    + apply lseg_upd; [lia | | assumption].
      intros H; apply (D1 y H); left; reflexivity.
    + destruct Hyz as (-> & Hby & _).
      simpl; repeat split.
      * now rewrite (in_bounds_length (storage st)) by apply upd_length.
      * rewrite nth_updZ_same by assumption.
        apply lseg_upd; [lia | | assumption].
        intros H; apply Hy; right; assumption.
  - intros H; apply in_app_iff in H as [H|[H|H]].
    + apply (D1 z H); right; left; reflexivity.
    + apply Hy; left; auto.
    + contradiction.
Qed.

Lemma In_member (x : Z) (l : list Z) : In x l -> member l x = true.
Proof. apply member_In. Qed.

Lemma release_blocks_sentinel (fuel : nat) (st : pool) :
  release_blocks fuel st NO_BLOCK = Done st.
Proof. reflexivity. Qed.

(** A chain of a single block is released as a whole. *)
Lemma release_blocks_single (fuel : nat) (st : pool) (x : Z) (fl : list Z) :
  free_list st fl -> chain st x [x] -> ~ In x fl ->
  exists st',
    release_blocks fuel st x = Done st' /\
    free_start st' = x /\ free_list st' (x :: fl).
Proof.
  intros (Hlen & Hfl) (_ & Hb & Hx) Hn; simpl in Hx.
  pose proof (proj1 (in_bounds_iff _ _) Hb) as Bx.
  unfold release_blocks.
  replace (x =? NO_BLOCK) with false by (unfold NO_BLOCK; lia).
  assert (E : find_last fuel (storage st) x x = Done x).
  { destruct fuel; cbn [find_last]; rewrite load_in by assumption;
      cbn [bind]; rewrite Hx; reflexivity. }
  rewrite E; cbn [bind]; rewrite store_in by assumption; cbn [bind].
  eexists; split; [reflexivity|]; split; [reflexivity|].
  split; cbn [storage free_start]; [now rewrite upd_length|].
  unfold chain; cbn [storage free_start]; simpl; repeat split.
  - now rewrite (in_bounds_length (storage st)) by apply upd_length.
  - rewrite nth_updZ_same by assumption.
    apply lseg_upd; [lia | assumption | assumption].
Qed.

End LinkedListFacts.

(* ------------------------------------------------------------------ *)
(** ** The allocation contract, checked on both representations *)

Module Contract.
Import Bitmap BitmapFacts LinkedList LinkedListFacts Driver.

Lemma map_init_wf : wf_map map_init.
Proof. split; [reflexivity|]. repeat constructor; lia. Qed.

(** C2.  The code at a chain of two blocks: [release_blocks] makes the
    chain head the new [free_start], but the walk stops with [last] one
    block short of the end, so block 1, the last block of the chain 0 -> 1,
    is on no list afterwards and [display_state] still prints it as used. *)
Theorem release_blocks_leaks_last_block (fuel : nat) :
  exists st1 st2,
    get_blocks fuel fresh 2 = Done (st1, 0) /\
    chain st1 0 [0; 1] /\
    release_blocks (S fuel) st1 0 = Done st2 /\
    free_start st2 = 0 /\
    free_list st2 (0 :: skipn 2 blocks) /\
    ~ In 1 (0 :: skipn 2 blocks) /\
    (d <- display_state 64 st2 ;; Done (nth 1 d 0)) = Done 1.
Proof.
  eexists; eexists.
  split; [vm_compute; reflexivity|].
  split; [unfold chain; simpl; repeat split|].
  split; [destruct fuel; vm_compute; reflexivity|].
  split; [reflexivity|].
  split; [split; [reflexivity | unfold chain; simpl; repeat split]|].
  split; [|vm_compute; reflexivity].
  intros H; apply In_member in H; discriminate.
Qed.

(** C3. All-or-nothing allocation.  Bitmap: the call returns, and when it
    returns the failure value the byte array is the one it started from.
    Linked list: with fuel for [MAX_BLOCKS] loop iterations the call
    returns, and when it returns [NO_BLOCK] the free list holds the same
    blocks as before (so [display_state] prints the same status for every
    block) and the links of the blocks outside the free list are
    untouched. *)
Theorem allocation_all_or_nothing :
  (forall m need,
      wf_map m ->
      exists m' r,
        allocate_contiguous m need = Done (m', r) /\ (r = -1 -> m' = m)) /\
  (forall fuel st l need,
      free_list st l -> (Z.to_nat MAX_BLOCKS <= fuel)%nat ->
      exists st' r,
        get_blocks fuel st need = Done (st', r) /\
        (r = NO_BLOCK ->
         display_state fuel st' = display_state fuel st /\
         same_outside l (storage st) (storage st') /\
         exists l', free_list st' l' /\ forall i, In i l' <-> In i l)).
Proof.
  split.
  - intros m need Hm.
    destruct (Z_le_gt_dec need 0) as [Hle|Hgt];
      [exists m, (-1); rewrite allocate_invalid by lia; auto|].
    destruct (Z_le_gt_dec need BLOCK_COUNT) as [Hle|Hgt'];
      [|exists m, (-1); rewrite allocate_invalid by lia; auto].
    destruct (allocate_spec m need Hm) as [(m' & s0 & E & F & _) | (E & _)];
      [lia | |].
    + exists m', s0; split; [assumption|].
      destruct F as (F0 & _); lia.
    + exists m, (-1); auto.
  - intros fuel st l need Hfl Hfuel.
    pose proof (free_list_length st l Hfl) as Hlen.
    destruct (Z_le_gt_dec need 0) as [Hle|Hgt].
    { exists st, NO_BLOCK; rewrite get_blocks_invalid by assumption.
      split; [reflexivity|]; intros _.
      split; [reflexivity|]; split; [apply same_outside_refl|].
      exists l; split; [assumption | reflexivity]. }
    destruct (Z_le_gt_dec need (Z.of_nat (length l))) as [Hfit|Hshort].
    + destruct (get_blocks_success fuel st l need Hfl) as (st' & E & _);
        [lia|].
      exists st', (free_start st); split; [assumption|].
      intros Hr; elim (free_list_head st l Hfl); [|assumption].
      intros ->; simpl in Hfit; lia.
    + destruct (get_blocks_failure fuel st l need Hfl) as (st' & E & F & O);
        [lia | lia |].
      exists st', NO_BLOCK; split; [assumption|]; intros _.
      assert (Hsame : forall i, In i (rev l) <-> In i l)
        by (intros i; symmetry; apply in_rev).
      split; [|split; [assumption|]].
      * apply (display_state_same fuel st st' l (rev l)); try assumption.
        -- lia.
        -- rewrite length_rev; lia.
      * exists (rev l); split; assumption.
Qed.

Lemma allocation_all_or_nothing_witness :
  (exists m' r,
      allocate_contiguous [255; 255; 255; 255; 255; 255; 255; 127] 2
      = Done (m', r) /\
      (r = -1 -> m' = [255; 255; 255; 255; 255; 255; 255; 127])) /\
  (exists st' r,
      get_blocks 64 fresh 65 = Done (st', r) /\
      (r = NO_BLOCK ->
       display_state 64 st' = display_state 64 fresh /\
       same_outside blocks (storage fresh) (storage st') /\
       exists l', free_list st' l' /\ forall i, In i l' <-> In i blocks)).
Proof.
  destruct allocation_all_or_nothing as (A & B); split.
  - apply A; split; [reflexivity|]. repeat constructor; lia.
  - apply (B 64%nat fresh blocks 65 fresh_free_list); simpl; lia.
Defined.

(** C4.  The code at an allocation of two blocks followed by the release of
    the returned handle: the pool is not the one before the allocation, and
    [display_state] shows one block more in use than before.  (For the
    bitmap the round trip does hold: see [bitmap_round_trip].) *)
Theorem linked_round_trip_loses_block (fuel : nat) :
  exists st1 st2,
    get_blocks fuel fresh 2 = Done (st1, 0) /\
    release_blocks (S fuel) st1 0 = Done st2 /\
    st2 <> fresh /\
    display_state 64 st2 <> display_state 64 fresh.
Proof.
  eexists; eexists.
  split; [vm_compute; reflexivity|].
  split; [destruct fuel; vm_compute; reflexivity|].
  split; [discriminate | vm_compute; discriminate].
Qed.

(** C6. Exhaustion boundary: on a freshly reset pool an allocation of all
    64 blocks succeeds with handle 0 and the next allocation of one block
    fails, in the bitmap and in the linked list. *)
Theorem exhaustion_boundary :
  (exists m1,
      allocate_contiguous map_init BLOCK_COUNT = Done (m1, 0) /\
      allocate_contiguous m1 1 = Done (m1, -1)) /\
  (forall fuel, exists st0 st1,
      setup initial = Done st0 /\
      get_blocks fuel st0 MAX_BLOCKS = Done (st1, 0) /\
      get_blocks fuel st1 1 = Done (st1, NO_BLOCK)).
Proof.
  split.
  - eexists; split; vm_compute; reflexivity.
  - intros fuel; eexists; eexists.
    split; [reflexivity|].
    split; [vm_compute; reflexivity|].
    destruct fuel; vm_compute; reflexivity.
Qed.

(** C7. Request validation.  The bitmap rejects [need <= 0] and
    [need > BLOCK_COUNT] at once, returning -1 and the map it was given.
    The linked list rejects only [num <= 0] at once; a request for more
    than [MAX_BLOCKS] blocks is served like any other: on the fresh pool it
    takes every block, fails, and gives the blocks back in reverse order, so
    the pool it leaves differs from the one it was given. *)
Theorem request_validation :
  (forall m need,
      need <= 0 \/ need > BLOCK_COUNT ->
      allocate_contiguous m need = Done (m, -1)) /\
  (forall fuel st num,
      num <= 0 -> get_blocks fuel st num = Done (st, NO_BLOCK)) /\
  (forall fuel num,
      MAX_BLOCKS < num -> (Z.to_nat MAX_BLOCKS <= fuel)%nat ->
      exists st',
        get_blocks fuel fresh num = Done (st', NO_BLOCK) /\
        free_list st' (rev blocks) /\
        free_start st' = MAX_BLOCKS - 1 /\ st' <> fresh).
Proof.
  split; [exact allocate_invalid|]; split; [exact get_blocks_invalid|].
  intros fuel num Hnum Hfuel.
  destruct (get_blocks_failure fuel fresh blocks num fresh_free_list)
    as (st' & E & F & _).
  - rewrite blocks_length; unfold MAX_BLOCKS in *; lia.
  - rewrite blocks_length; assumption.
  - exists st'; split; [assumption|]; split; [assumption|].
    assert (Hfs : free_start st' = MAX_BLOCKS - 1).
    { destruct F as (_ & F); apply lseg_hd in F; exact F. }
    split; [assumption|].
    intros ->; discriminate.
Qed.

Lemma request_validation_witness :
  allocate_contiguous map_init 65 = Done (map_init, -1) /\
  get_blocks 0 fresh 0 = Done (fresh, NO_BLOCK) /\
  exists st',
    get_blocks 64 fresh 65 = Done (st', NO_BLOCK) /\
    free_list st' (rev blocks) /\
    free_start st' = MAX_BLOCKS - 1 /\ st' <> fresh.
Proof.
  destruct request_validation as (A & B & C).
  split; [apply A; right; unfold BLOCK_COUNT; lia|].
  split; [apply B; lia|].
  apply C; [unfold MAX_BLOCKS; lia | simpl; lia].
Defined.

Lemma in_step_intro (k : Z) (m : bitmap) (st : pool) (l : list Z) :
  0 <= k <= BLOCK_COUNT -> wf_map m ->
  (forall i, valid i -> bit m i = (i <? k)) ->
  free_list st l -> Z.of_nat (length l) = BLOCK_COUNT - k ->
  in_step k m st.
Proof.
  intros H1 H2 H3 H4 H5; split; [assumption|]; split; [assumption|].
  split; [assumption|]; exists l; split; assumption.
Qed.

(** One allocation request served by both pools while they are in step. *)
Lemma in_step_allocate (fuel : nat) (k : Z) (m : bitmap) (st : pool)
  (need : Z) :
  in_step k m st -> (Z.to_nat MAX_BLOCKS <= fuel)%nat ->
  exists m' h st' h' k',
    allocate_contiguous m need = Done (m', h) /\
    get_blocks fuel st need = Done (st', h') /\
    succeeded (-1) h = succeeded NO_BLOCK h' /\
    in_step k' m' st'.
Proof.
  intros (Hk & Hm & Hbits & l & Hfl & Hlen) Hfuel.
  pose proof (free_list_length st l Hfl) as Hl64.
  destruct (Z_le_gt_dec need 0) as [Hle|Hpos].
  { (* both reject the request *)
    exists m, (-1), st, NO_BLOCK, k.
    rewrite allocate_invalid, get_blocks_invalid by lia.
    split; [reflexivity|]; split; [reflexivity|]; split; [reflexivity|].
    apply (in_step_intro k m st l); assumption. }
  assert (Hfail :
    allocate_contiguous m need = Done (m, -1) ->
    BLOCK_COUNT - k < need ->
    exists m' h st' h' k',
      allocate_contiguous m need = Done (m', h) /\
      get_blocks fuel st need = Done (st', h') /\
      succeeded (-1) h = succeeded NO_BLOCK h' /\
      in_step k' m' st').
  { intros E Hshort.
    destruct (get_blocks_failure fuel st l need Hfl) as (st' & E' & F & _);
      [lia | lia |].
    exists m, (-1), st', NO_BLOCK, k.
    split; [assumption|]; split; [assumption|]; split; [reflexivity|].
    apply (in_step_intro k m st' (rev l)); try assumption.
    rewrite length_rev; assumption. }
  destruct (Z_le_gt_dec need BLOCK_COUNT) as [Hle|Hbig].
  2:{ apply Hfail; [apply allocate_invalid; lia | lia]. }
  destruct (allocate_spec m need Hm) as [(m' & s0 & E & F & L & M) | (E & N)];
    [lia | |].
  - (* the bitmap finds a run: it starts at [k] *)
    assert (Hs0 : s0 = k).
    { destruct F as (F0 & F1 & F2).
      assert (k <= s0).
      { specialize (F2 s0); rewrite Hbits in F2 by (unfold valid; lia).
        destruct (Z.ltb_spec s0 k); [|assumption].
        assert (true = false) by (apply F2; lia); discriminate. }
      assert (s0 <= k); [|lia].
      apply L; repeat split; try lia.
      intros j Hj; rewrite Hbits by (unfold valid; lia); lia. }
    subst s0.
    destruct F as (F0 & F1 & _).
    destruct (get_blocks_success fuel st l need Hfl) as (st' & E' & _ & F' & _);
      [lia|].
    exists m', k, st', (free_start st), (k + need).
    split; [assumption|]; split; [assumption|]; split.
    + unfold succeeded.
      replace (k =? -1) with false by lia.
      assert (free_start st <> NO_BLOCK).
      { apply (free_list_head st l Hfl); intros ->.
        change (Z.of_nat (length (@nil Z))) with 0 in Hlen; lia. }
      replace (free_start st =? NO_BLOCK) with false by lia; reflexivity.
    + destruct M as (Hm' & Hbits').
      apply (in_step_intro _ m' st' (skipn (Z.to_nat need) l));
        try assumption; try lia.
      * intros i Hi; rewrite Hbits', Hbits by assumption.
        unfold valid in Hi; lia.
      * rewrite length_skipn; lia.
  - (* the bitmap finds no run: fewer than [need] blocks are left *)
    apply Hfail; [assumption|].
    destruct (Z_lt_ge_dec (BLOCK_COUNT - k) need) as [|Hfit]; [assumption|].
    elim (N k); repeat split; try lia.
    intros j Hj; rewrite Hbits by (unfold valid; lia); lia.
Qed.

Lemma in_step_run (fuel : nat) (needs : list Z) :
  forall k m st log1 log2,
    in_step k m st -> (Z.to_nat MAX_BLOCKS <= fuel)%nat ->
    exists obs,
      run_bitmap (map Allocate needs) m log1 = Done obs /\
      run_list fuel (map Allocate needs) st log2 = Done obs.
Proof.
  induction needs as [|need needs IH]; intros k m st log1 log2 Hstep Hfuel.
  - exists []; split; reflexivity.
  - destruct (in_step_allocate fuel k m st need Hstep Hfuel)
      as (m' & h & st' & h' & k' & E1 & E2 & Hobs & Hstep').
    destruct (IH k' m' st' (log1 ++ [(h, need)]) (log2 ++ [(h', need)])
                Hstep' Hfuel) as (obs & R1 & R2).
    exists (succeeded (-1) h :: obs); simpl.
    rewrite E1, E2; simpl; rewrite R1, R2, Hobs; split; reflexivity.
Qed.

Lemma in_step_fresh : in_step 0 map_init fresh.
Proof.
  apply (in_step_intro 0 map_init fresh blocks).
  - unfold BLOCK_COUNT; lia.
  - exact map_init_wf.
  - intros i Hi.
    replace (i <? 0) with false by (unfold valid in Hi; lia).
    unfold bit, map_init.
    change (Z.to_nat MAP_SIZE) with 8%nat.
    rewrite nth_repeat; apply Z.bits_0.
  - exact fresh_free_list.
  - reflexivity.
Qed.

(** C8, as amended.  For every sequence of allocation requests, without
    releases in between, applied to a freshly reset pool, the bitmap and the
    linked list report the same success or failure for every request. *)
Theorem allocations_agree (fuel : nat) (needs : list Z) :
  (Z.to_nat MAX_BLOCKS <= fuel)%nat ->
  exists obs,
    bitmap_outcomes (map Allocate needs) = Done obs /\
    list_outcomes fuel (map Allocate needs) = Done obs.
Proof.
  intros Hfuel; unfold bitmap_outcomes, list_outcomes.
  rewrite setup_initial; cbn [bind].
  apply (in_step_run fuel needs 0 map_init fresh [] [] in_step_fresh Hfuel).
Qed.

Lemma allocations_agree_witness :
  exists obs,
    bitmap_outcomes (map Allocate [30; 40; 0; 34; 1]) = Done obs /\
    list_outcomes 64 (map Allocate [30; 40; 0; 34; 1]) = Done obs.
Proof.
  apply (allocations_agree 64 [30; 40; 0; 34; 1]); simpl; lia.
Defined.

(** C8 as the specification words it does not hold of the code: after two
    single blocks at the two ends of the pool have been released, a request
    for two blocks fails in the bitmap, which needs them adjacent, and
    succeeds in the linked list, which chains any two free blocks. *)
Lemma representations_disagree :
  let reqs := [Allocate 1; Allocate 62; Allocate 1;
               Release 0; Release 2; Allocate 2] in
  bitmap_outcomes reqs = Done [true; true; true; false] /\
  list_outcomes 64 reqs = Done [true; true; true; true] /\
  ~ (exists obs,
        bitmap_outcomes reqs = Done obs /\ list_outcomes 64 reqs = Done obs).
Proof.
  intros reqs.
  assert (E1 : bitmap_outcomes reqs = Done [true; true; true; false])
    by (vm_compute; reflexivity).
  assert (E2 : list_outcomes 64 reqs = Done [true; true; true; true])
    by (vm_compute; reflexivity).
  split; [assumption|]; split; [assumption|].
  intros (obs & H1 & H2); rewrite E1 in H1; rewrite E2 in H2.
  congruence.
Qed.

End Contract.

(* ------------------------------------------------------------------ *)
(** ** Further properties of the bitmap allocator *)

Module BitmapProperties.
Import Bitmap BitmapFacts.

(** The two ways a call of [allocate_contiguous] can end. *)
Lemma allocate_cases (m : bitmap) (need : Z) :
  wf_map m ->
  allocate_contiguous m need = Done (m, -1) /\
  (1 <= need <= BLOCK_COUNT -> forall s, ~ free_at m s need)
  \/ exists m' s0,
      allocate_contiguous m need = Done (m', s0) /\
      1 <= need <= BLOCK_COUNT /\
      free_at m s0 need /\ (forall s, free_at m s need -> s0 <= s) /\
      marked m m' s0 need.
Proof.
  intros Hm.
  destruct (Z_le_gt_dec need 0) as [Hle|Hgt];
    [left; split; [apply allocate_invalid|]; lia|].
  destruct (Z_le_gt_dec need BLOCK_COUNT) as [Hle|Hgt'];
    [|left; split; [apply allocate_invalid|]; lia].
  destruct (allocate_spec m need Hm) as [(m' & s0 & E & F & L & M) | (E & N)];
    [lia | |].
  - right; exists m', s0.
    split; [assumption|]; split; [lia|]; split; [assumption|].
    split; assumption.
  - left; split; [assumption | intros _; exact N].
Qed.

Lemma free_at_valid (m : bitmap) (s need j : Z) :
  free_at m s need -> s <= j < s + need -> valid j.
Proof. intros (H0 & H1 & _) Hj; unfold valid; lia. Qed.

(** X1.  [allocate_contiguous] reports failure exactly when the map has no run
    of [need] free blocks. *)
Theorem allocate_fails_iff_no_run (m : bitmap) (need : Z) :
  wf_map m -> 1 <= need <= BLOCK_COUNT ->
  exists m' r,
    allocate_contiguous m need = Done (m', r) /\
    (r = -1 <-> forall s, ~ run_free m s need).
Proof.
  intros Hm Hneed.
  destruct (allocate_cases m need Hm) as [(E & N) | (m' & s0 & E & _ & F & _)].
  - exists m, (-1); split; [assumption|]; split; [|reflexivity].
    intros _ s Hs; apply (N Hneed s), run_free_iff; assumption.
  - exists m', s0; split; [assumption|]; split.
    + intros ->; destruct F as (F0 & _); lia.
    + intros N; elim (N s0); apply run_free_iff; assumption.
Qed.

Lemma allocate_fails_iff_no_run_witness :
  let m := [255; 255; 255; 255; 255; 255; 255; 127] in
  wf_map m /\
  exists m' r,
    allocate_contiguous m 2 = Done (m', r) /\
    (r = -1 <-> forall s, ~ run_free m s 2).
Proof.
  intros m.
  assert (Hm : wf_map m) by (split; [reflexivity | repeat constructor; lia]).
  split; [exact Hm|].
  apply (allocate_fails_iff_no_run m 2 Hm); unfold BLOCK_COUNT; lia.
Defined.

(** X2.  On a well-formed map every allocation returns, and freeing the extent
    it handed out gives back the very map the allocation started from. *)
Theorem allocate_then_free_restores (m : bitmap) (need : Z) :
  wf_map m ->
  exists m' h,
    allocate_contiguous m need = Done (m', h) /\
    (h <> -1 -> free_contiguous m' h need = Done m).
Proof.
  intros Hm.
  destruct (allocate_cases m need Hm) as [(E & _) | (m' & s0 & E & _)].
  - exists m, (-1); split; [assumption | congruence].
  - exists m', s0; split; [assumption|].
    intros Hh; apply (bitmap_round_trip m m' need s0); assumption.
Qed.

Lemma allocate_then_free_restores_witness :
  let m := [255; 15; 0; 0; 0; 0; 0; 0] in
  wf_map m /\
  exists m' h,
    allocate_contiguous m 7 = Done (m', h) /\
    (h <> -1 -> free_contiguous m' h 7 = Done m).
Proof.
  intros m.
  assert (Hm : wf_map m) by (split; [reflexivity | repeat constructor; lia]).
  split; [exact Hm|].
  apply (allocate_then_free_restores m 7 Hm).
Defined.

(** X3.  Freed space can be used again: right after an extent of [count] blocks
    at [start] has been freed, an allocation of [count] blocks succeeds, at
    [start] or below it. *)
Theorem free_then_allocate_reuses (m : bitmap) (start count : Z) :
  wf_map m -> 0 <= start -> 1 <= count -> start + count <= BLOCK_COUNT ->
  exists m1 m2 s0,
    free_contiguous m start count = Done m1 /\
    allocate_contiguous m1 count = Done (m2, s0) /\
    0 <= s0 <= start.
Proof.
  intros Hm H0 H1 H2.
  destruct (free_spec m start count Hm) as (m1 & E1 & W1 & B1); try lia.
  assert (F : free_at m1 start count).
  { split; [assumption|]; split; [assumption|].
    intros j Hj; rewrite B1 by (unfold valid; lia).
    replace ((start <=? j) && (j <? start + count)) with true by lia.
    reflexivity. }
  destruct (allocate_cases m1 count W1)
    as [(_ & N) | (m2 & s0 & E2 & _ & (F0 & _) & L & _)].
  - elim (N ltac:(lia) start F).
  - exists m1, m2, s0.
    split; [assumption|]; split; [assumption|]; split; [assumption|].
    apply L; assumption.
Qed.

Lemma free_then_allocate_reuses_witness :
  let m := [255; 255; 1; 0; 0; 0; 0; 0] in
  wf_map m /\
  exists m1 m2 s0,
    free_contiguous m 12 5 = Done m1 /\
    allocate_contiguous m1 5 = Done (m2, s0) /\
    0 <= s0 <= 12.
Proof.
  intros m.
  assert (Hm : wf_map m) by (split; [reflexivity | repeat constructor; lia]).
  split; [exact Hm|].
  apply (free_then_allocate_reuses m 12 5 Hm); unfold BLOCK_COUNT; lia.
Defined.

(** X4.  No overlap: two allocations in a row that both succeed hand out
    disjoint extents, and the blocks of the first are still used after the
    second. *)
Theorem allocations_do_not_overlap (m m1 m2 : bitmap) (n1 n2 s1 s2 : Z) :
  wf_map m ->
  allocate_contiguous m n1 = Done (m1, s1) -> s1 <> -1 ->
  allocate_contiguous m1 n2 = Done (m2, s2) -> s2 <> -1 ->
  (s1 + n1 <= s2 \/ s2 + n2 <= s1) /\
  forall i, s1 <= i < s1 + n1 -> check_block_status m2 i = Done 1.
Proof.
  intros Hm E1 H1 E2 H2.
  destruct (allocate_cases m n1 Hm) as [(E & _) | (m' & s & E & N1 & F1 & _ & M1)];
    rewrite E in E1; injection E1 as <- <-; [congruence|].
  destruct M1 as (W1 & B1).
  destruct (allocate_cases m' n2 W1)
    as [(E' & _) | (m'' & s' & E' & N2 & F2 & _ & M2)];
    rewrite E' in E2; injection E2 as <- <-; [congruence|].
  destruct M2 as (W2 & B2).
  assert (Hused : forall i, s <= i < s + n1 -> bit m' i = true).
  { intros i Hi; rewrite B1 by (apply (free_at_valid m s n1); assumption).
    replace ((s <=? i) && (i <? s + n1)) with true by lia; reflexivity. }
  split.
  - destruct (Z_le_gt_dec (s + n1) s') as [|Ha]; [left; assumption|].
    destruct (Z_le_gt_dec (s' + n2) s) as [|Hb]; [right; assumption|].
    exfalso.
    destruct F2 as (_ & _ & F2).
    specialize (Hused (Z.max s s') ltac:(lia)).
    rewrite F2 in Hused by lia; discriminate.
  - intros i Hi.
    assert (Vi : valid i) by (apply (free_at_valid m s n1); assumption).
    apply status_used; try assumption.
    rewrite B2, (Hused i Hi) by assumption; apply orb_true_r.
Qed.

Lemma allocations_do_not_overlap_witness :
  let m := [0; 240; 1; 0; 0; 0; 0; 0] in
  let m1 := [127; 240; 1; 0; 0; 0; 0; 0] in
  let m2 := [255; 247; 1; 0; 0; 0; 0; 0] in
  wf_map m /\
  allocate_contiguous m 7 = Done (m1, 0) /\
  allocate_contiguous m1 4 = Done (m2, 7) /\
  (0 + 7 <= 7 \/ 7 + 4 <= 0) /\
  forall i, 0 <= i < 0 + 7 -> check_block_status m2 i = Done 1.
Proof.
  intros m m1 m2.
  assert (Hm : wf_map m) by (split; [reflexivity | repeat constructor; lia]).
  split; [exact Hm|]; split; [reflexivity|]; split; [reflexivity|].
  apply (allocations_do_not_overlap m m1 m2 7 4 0 7 Hm);
    try reflexivity; lia.
Defined.

Lemma in_block_ids (j : Z) : In j block_ids -> valid j.
Proof.
  unfold block_ids; rewrite in_map_iff; intros (n & <- & Hn).
  apply in_seq in Hn; unfold valid, BLOCK_COUNT in *; lia.
Qed.

Lemma show_loop_spec (m : bitmap) (n : nat) :
  forall i : nat,
    wf_map m -> (i + n <= Z.to_nat BLOCK_COUNT)%nat ->
    show_loop n m (Z.of_nat i) =
    Done (map (fun j => Z.b2z (bit m j)) (map Z.of_nat (seq i n))).
Proof.
  induction n as [|n IH]; intros i Hm Hi; [reflexivity|].
  cbn [show_loop].
  rewrite status_bit by (try assumption; unfold valid, BLOCK_COUNT in *; lia).
  cbn [bind].
  replace (Z.of_nat i + 1) with (Z.of_nat (S i)) by lia.
  rewrite IH by (try assumption; lia); reflexivity.
Qed.

(** [show_map] prints, block by block, 1 for a used block and 0 for a free
    one. *)
Lemma show_map_spec (m : bitmap) :
  wf_map m -> show_map m = Done (map (fun j => Z.b2z (bit m j)) block_ids).
Proof.
  intros Hm; apply (show_loop_spec m _ 0%nat Hm); reflexivity.
Qed.

(** Marking a free run of [n] blocks raises the number of ones printed for
    the blocks [a .. a+len-1] by the size of the overlap with the run. *)
Lemma sum_marked (f f' : Z -> bool) (s n : Z) (len : nat) :
  forall a : nat,
    0 <= n ->
    (forall j, Z.of_nat a <= j < Z.of_nat a + Z.of_nat len ->
               f' j = ((s <=? j) && (j <? s + n)) || f j) ->
    (forall j, s <= j < s + n -> f j = false) ->
    fold_right Z.add 0 (map (fun j => Z.b2z (f' j)) (map Z.of_nat (seq a len))) =
    fold_right Z.add 0 (map (fun j => Z.b2z (f j)) (map Z.of_nat (seq a len)))
    + Z.max 0 (Z.min (Z.of_nat a + Z.of_nat len) (s + n) - Z.max (Z.of_nat a) s).
Proof.
  induction len as [|len IH]; intros a Hn Hf' Hf; simpl seq; simpl map;
    simpl fold_right; [lia|].
  rewrite (IH (S a)) by (try assumption; intros j Hj; apply Hf'; lia).
  rewrite (Hf' (Z.of_nat a)) by lia.
  destruct ((s <=? Z.of_nat a) && (Z.of_nat a <? s + n)) eqn:Hin; simpl orb.
  - rewrite (Hf (Z.of_nat a)) by lia; simpl Z.b2z; lia.
  - lia.
Qed.

(** X5.  Conservation: a successful allocation of [need] blocks raises the
    number of blocks printed as used by exactly [need]. *)
Theorem allocation_counts (m m' : bitmap) (need h : Z) :
  wf_map m -> allocate_contiguous m need = Done (m', h) -> h <> -1 ->
  exists c,
    used_count m = Done c /\ used_count m' = Done (c + need) /\
    0 <= c /\ c + need <= BLOCK_COUNT.
Proof.
  intros Hm E Hh.
  destruct (allocate_cases m need Hm)
    as [(E' & _) | (m1 & s0 & E' & Hneed & F & _ & W1 & B1)];
    rewrite E' in E; injection E as <- <-; [congruence|].
  destruct F as (F0 & F1 & F2).
  unfold used_count; rewrite !show_map_spec by assumption; cbn [bind].
  eexists; split; [reflexivity|].
  pose proof (sum_marked (bit m) (bit m1) s0 need (Z.to_nat BLOCK_COUNT) 0%nat)
    as Hsum.
  fold block_ids in Hsum.
  rewrite Hsum; clear Hsum.
  - unfold BLOCK_COUNT in *; simpl Z.of_nat.
    split; [f_equal; lia|].
    assert (Hbound : forall l : list Z,
               0 <= fold_right Z.add 0 (map (fun j => Z.b2z (bit m j)) l)).
    { induction l as [|x l IH]; simpl; [lia|].
      destruct (bit m x); simpl Z.b2z; lia. }
    split; [apply Hbound|].
    assert (Hle : forall l : list Z,
               fold_right Z.add 0 (map (fun j => Z.b2z (bit m1 j)) l)
               <= Z.of_nat (length l)).
    { induction l as [|x l IH]; simpl length; simpl fold_right; [lia|].
      simpl map; simpl fold_right.
      destruct (bit m1 x); simpl Z.b2z; lia. }
    specialize (Hle block_ids).
    pose proof (sum_marked (bit m) (bit m1) s0 need 64%nat 0%nat) as Hsum.
    fold block_ids in Hsum. change (map Z.of_nat (seq 0 64)) with block_ids in Hsum.
    rewrite Hsum in Hle.
    + change (Z.of_nat (length block_ids)) with 64 in Hle.
      simpl Z.of_nat in Hle; lia.
    + lia.
    + intros j Hj; apply B1; unfold valid, BLOCK_COUNT; simpl in Hj; lia.
    + assumption.
  - lia.
  - intros j Hj; apply B1; unfold valid, BLOCK_COUNT in *; simpl in Hj; lia.
  - assumption.
Qed.

Lemma allocation_counts_witness :
  let m := [255; 15; 0; 0; 0; 0; 0; 0] in
  wf_map m /\
  allocate_contiguous m 5 = Done ([255; 255; 1; 0; 0; 0; 0; 0], 12) /\
  exists c,
    used_count m = Done c /\
    used_count [255; 255; 1; 0; 0; 0; 0; 0] = Done (c + 5) /\
    0 <= c /\ c + 5 <= BLOCK_COUNT.
Proof.
  intros m.
  assert (Hm : wf_map m) by (split; [reflexivity | repeat constructor; lia]).
  split; [exact Hm|]; split; [reflexivity|].
  apply (allocation_counts m _ 5 12 Hm); [reflexivity | lia].
Defined.

Lemma covered_cons (e : Z * Z) (log : list (Z * Z)) (i : Z) :
  covered (e :: log) i =
  negb (fst e =? -1) && (fst e <=? i) && (i <? fst e + snd e)
  || covered log i.
Proof. reflexivity. Qed.

Lemma alloc_phase_spec (draws : list Z) :
  forall m,
    wf_map m ->
    exists m' log,
      alloc_phase draws m = Done (m', log) /\ wf_map m' /\
      Forall extent_ok log /\
      forall i, valid i -> bit m' i = true ->
                bit m i = true \/ covered log i = true.
Proof.
  induction draws as [|d draws IH]; intros m Hm.
  - exists m, []; repeat split; auto; apply Hm.
  - cbn [alloc_phase]; cbv zeta.
    set (size := Z.rem d 5 + 1).
    destruct (allocate_cases m size Hm)
      as [(E & _) | (m1 & s0 & E & Hsize & F & _ & W1 & B1)];
      rewrite E; cbn [bind].
    + destruct (IH m Hm) as (m' & log & E' & W' & Hok & Hcov).
      rewrite E'; cbn [bind].
      exists m', ((-1, size) :: log).
      split; [reflexivity|]; split; [assumption|]; split.
      * constructor; [intros H; simpl in H; congruence | assumption].
      * intros i Vi Hi; destruct (Hcov i Vi Hi) as [H|H]; [left; assumption|].
        right; rewrite covered_cons, H; apply orb_true_r.
    + destruct (IH m1 W1) as (m' & log & E' & W' & Hok & Hcov).
      rewrite E'; cbn [bind].
      destruct F as (F0 & F1 & _).
      exists m', ((s0, size) :: log).
      split; [reflexivity|]; split; [assumption|]; split.
      * constructor; [intros _; simpl; lia | assumption].
      * intros i Vi Hi; destruct (Hcov i Vi Hi) as [H|H].
        -- rewrite B1 in H by assumption.
           apply orb_true_iff in H as [H|H]; [right | left; assumption].
           rewrite covered_cons; cbn [fst snd].
           replace (s0 =? -1) with false by lia.
           simpl negb; rewrite andb_true_l, H; reflexivity.
        -- right; rewrite covered_cons, H; apply orb_true_r.
Qed.

Lemma free_phase_spec (log : list (Z * Z)) :
  forall m,
    wf_map m -> Forall extent_ok log ->
    exists m',
      free_phase log m = Done m' /\ wf_map m' /\
      forall i, valid i -> bit m' i = bit m i && negb (covered log i).
Proof.
  induction log as [|[a size] log IH]; intros m Hm Hok.
  - exists m; repeat split; try apply Hm.
    intros i _; simpl; now rewrite andb_true_r.
  - apply Forall_cons_iff in Hok as (Ha & Hok).
    cbn [free_phase].
    destruct (Z.eqb_spec a (-1)) as [->|Hne]; cbn [negb].
    + destruct (IH m Hm Hok) as (m' & E & W & B).
      exists m'; split; [assumption|]; split; [assumption|].
      intros i Vi; rewrite B, covered_cons by assumption; reflexivity.
    + destruct (Ha Hne) as (A0 & A1 & A2); simpl in A0, A1, A2.
      destruct (free_spec m a size Hm A0 A1 A2) as (m1 & E1 & W1 & B1).
      rewrite E1; cbn [bind].
      destruct (IH m1 W1 Hok) as (m' & E & W & B).
      exists m'; split; [assumption|]; split; [assumption|].
      intros i Vi; rewrite B, B1, covered_cons by assumption; cbn [fst snd].
      replace (a =? -1) with false by lia; simpl negb.
      destruct ((a <=? i) && (i <? a + size)), (bit m i), (covered log i);
        reflexivity.
Qed.

(** X6.  One run of the speed test leaves the pool empty: whatever [rand()]
    returns, after allocating one extent per draw and then freeing every
    extent that was handed out, every block is free again. *)
Theorem speed_run_leaves_pool_free (draws : list Z) :
  speed_run draws = Done map_init.
Proof.
  assert (Hinit : wf_map map_init)
    by (split; [reflexivity | repeat constructor; lia]).
  unfold speed_run.
  destruct (alloc_phase_spec draws map_init Hinit)
    as (m & log & E & W & Hok & Hcov).
  rewrite E; cbn [bind].
  destruct (free_phase_spec log m W Hok) as (m' & E' & W' & B).
  rewrite E'; f_equal.
  apply bitmap_ext; try assumption.
  intros i Vi; rewrite B by assumption.
  assert (H0 : bit map_init i = false).
  { unfold bit, map_init; change (Z.to_nat MAP_SIZE) with 8%nat.
    rewrite nth_repeat; apply Z.bits_0. }
  rewrite H0.
  destruct (bit m i) eqn:Hb; [|reflexivity].
  destruct (Hcov i Vi Hb) as [H|H]; [congruence|].
  rewrite H; reflexivity.
Qed.

Lemma packed_allocate (m : bitmap) (k need : Z) :
  packed m k -> 0 <= k -> 1 <= need -> k + need <= BLOCK_COUNT ->
  exists m', allocate_contiguous m need = Done (m', k) /\ packed m' (k + need).
Proof.
  intros (Hm & Hbits) Hk Hneed Hfit.
  assert (Fk : free_at m k need).
  { split; [assumption|]; split; [assumption|].
    intros j Hj; rewrite Hbits by (unfold valid; lia); lia. }
  destruct (allocate_cases m need Hm)
    as [(_ & N) | (m' & s0 & E & _ & F & L & W' & B')].
  - elim (N ltac:(lia) k Fk).
  - assert (Hs0 : s0 = k).
    { pose proof (L k Fk).
      destruct F as (F0 & F1 & F2).
      specialize (F2 s0 ltac:(lia)).
      rewrite Hbits in F2 by (unfold valid; lia); lia. }
    subst s0; exists m'; split; [assumption|]; split; [assumption|].
    intros i Vi; rewrite B', Hbits by assumption; unfold valid in Vi; lia.
Qed.

Lemma packed_show (m : bitmap) (k : Z) :
  packed m k -> show_map m = Done (packed_line k).
Proof.
  intros (Hm & Hbits); rewrite show_map_spec by assumption.
  f_equal; apply map_ext_in; intros j Hj.
  rewrite Hbits by (apply in_block_ids; assumption).
  destruct (j <? k); reflexivity.
Qed.

Lemma trace_loop_spec (steps : list Z) :
  forall m k,
    packed m k -> 0 <= k -> Forall (fun x => 1 <= x) steps ->
    k + fold_right Z.add 0 steps <= BLOCK_COUNT ->
    trace_loop steps m = Done (map packed_line (running k steps)).
Proof.
  induction steps as [|x steps IH]; intros m k Hp Hk Hpos Hsum;
    [reflexivity|].
  apply Forall_cons_iff in Hpos as (Hx & Hpos); simpl in Hsum.
  assert (0 <= fold_right Z.add 0 steps).
  { clear -Hpos; induction Hpos; simpl; lia. }
  destruct (packed_allocate m k x Hp Hk Hx) as (m' & E & Hp'); [lia|].
  cbn [trace_loop running map]; rewrite E; cbn [bind].
  rewrite (packed_show m' (k + x) Hp'); cbn [bind].
  rewrite (IH m' (k + x)) by (try assumption; lia).
  reflexivity.
Qed.

Lemma packed_map_init : packed map_init 0.
Proof.
  split; [split; [reflexivity | repeat constructor; lia]|].
  intros i Vi.
  replace (i <? 0) with false by (unfold valid in Vi; lia).
  unfold bit, map_init; change (Z.to_nat MAP_SIZE) with 8%nat.
  rewrite nth_repeat; apply Z.bits_0.
Qed.

(** X7.  The allocation trace packs the pool from the front: when every step
    asks for at least one block and the steps together fit the pool, the
    line printed after each step shows exactly the blocks below the running
    total of the steps as used. *)
Theorem trace_packs_from_front (steps : list Z) :
  Forall (fun x => 1 <= x) steps ->
  fold_right Z.add 0 steps <= BLOCK_COUNT ->
  trace_loop steps map_init = Done (map packed_line (running 0 steps)).
Proof.
  intros Hpos Hsum.
  apply trace_loop_spec; try assumption; try lia.
  exact packed_map_init.
Qed.

Lemma trace_packs_from_front_witness :
  Forall (fun x => 1 <= x) trace_steps /\
  fold_right Z.add 0 trace_steps <= BLOCK_COUNT /\
  trace_test_bitmap = Done (map packed_line (running 0 trace_steps)).
Proof.
  assert (H1 : Forall (fun x => 1 <= x) trace_steps)
    by (repeat constructor; lia).
  assert (H2 : fold_right Z.add 0 trace_steps <= BLOCK_COUNT)
    by (vm_compute; discriminate).
  split; [exact H1|]; split; [exact H2|].
  apply (trace_packs_from_front trace_steps H1 H2).
Defined.

End BitmapProperties.

(* ------------------------------------------------------------------ *)
(** ** Further properties of the linked free-list allocator *)

Module LinkedListProperties.
Import LinkedList LinkedListFacts.

Lemma fuel_enough (fuel : nat) (st : pool) (l : list Z) :
  free_list st l -> (Z.to_nat MAX_BLOCKS <= fuel)%nat -> (length l <= fuel)%nat.
Proof. intros Hfl Hfuel; pose proof (free_list_length st l Hfl); lia. Qed.

(** X8.  [setup] turns any pool of [MAX_BLOCKS] nodes, whatever its links were,
    into the pool whose free list is 0, 1, ..., 63 in this order. *)
Theorem setup_gives_ascending_free_list (st : pool) :
  length (storage st) = Z.to_nat MAX_BLOCKS ->
  exists st',
    setup st = Done st' /\ free_start st' = 0 /\ free_list st' blocks.
Proof.
  intros Hlen; exists fresh; split; [apply setup_resets; assumption|].
  split; [reflexivity | exact fresh_free_list].
Qed.

Lemma setup_gives_ascending_free_list_witness :
  length (storage initial) = Z.to_nat MAX_BLOCKS /\
  exists st',
    setup initial = Done st' /\ free_start st' = 0 /\ free_list st' blocks.
Proof.
  split; [reflexivity|].
  apply (setup_gives_ascending_free_list initial); reflexivity.
Defined.

(** X9.  [get_one_block] pops the head of the free list: it returns the first
    free block, cut off from the list, and leaves the rest as the free list;
    on an empty free list it returns [NO_BLOCK] and changes nothing. *)
Theorem get_one_block_pops_head (st : pool) (l : list Z) :
  free_list st l ->
  exists st',
    get_one_block st = Done (st', hd NO_BLOCK l) /\
    free_list st' (tl l) /\
    (l = [] -> st' = st) /\
    (l <> [] -> chain st' (hd NO_BLOCK l) [hd NO_BLOCK l]).
Proof.
  intros (Hlen & Hl); destruct st as [s fs]; unfold chain in *; simpl in *.
  destruct l as [|x l].
  - simpl in Hl; subst fs.
    exists (mkPool s NO_BLOCK); simpl.
    split; [reflexivity|]; split; [split; [assumption | reflexivity]|].
    split; [reflexivity | congruence].
  - pose proof (lseg_NoDup _ _ _ Hl) as ND.
    apply NoDup_cons_iff in ND as (Hx & _).
    rewrite (get_one_block_cons s fs x l Hl).
    destruct Hl as (_ & Hb & Hl).
    pose proof (proj1 (in_bounds_iff _ _) Hb) as Bx.
    eexists; split; [reflexivity|]; simpl.
    split; [|split; [congruence|]].
    + split; simpl; [now rewrite upd_length|].
      apply lseg_upd; [lia | assumption | assumption].
    + intros _; split; [reflexivity|]; split.
      * now rewrite (in_bounds_length s) by apply upd_length.
      * apply nth_updZ_same; assumption.
Qed.

Lemma get_one_block_pops_head_witness :
  free_list fresh blocks /\
  exists st',
    get_one_block fresh = Done (st', hd NO_BLOCK blocks) /\
    free_list st' (tl blocks) /\
    (blocks = [] -> st' = fresh) /\
    (blocks <> [] -> chain st' (hd NO_BLOCK blocks) [hd NO_BLOCK blocks]).
Proof.
  split; [exact fresh_free_list|].
  apply (get_one_block_pops_head fresh blocks fresh_free_list).
Defined.

(** X10.  [get_blocks] succeeds exactly when the free list holds at least [need]
    blocks. *)
Theorem get_blocks_succeeds_iff_enough (fuel : nat) (st : pool)
  (l : list Z) (need : Z) :
  free_list st l -> 1 <= need -> (Z.to_nat MAX_BLOCKS <= fuel)%nat ->
  exists st' r,
    get_blocks fuel st need = Done (st', r) /\
    (r <> NO_BLOCK <-> need <= Z.of_nat (length l)).
Proof.
  intros Hfl Hneed Hfuel.
  pose proof (fuel_enough fuel st l Hfl Hfuel) as Hf.
  destruct (Z_le_gt_dec need (Z.of_nat (length l))) as [Hfit|Hshort].
  - destruct (get_blocks_success fuel st l need Hfl) as (st' & E & _); [lia|].
    exists st', (free_start st); split; [assumption|].
    split; [intros _; assumption|]; intros _.
    apply (free_list_head st l Hfl); intros ->; simpl in Hfit; lia.
  - destruct (get_blocks_failure fuel st l need Hfl) as (st' & E & _);
      [lia | assumption |].
    exists st', NO_BLOCK; split; [assumption|].
    split; [congruence | lia].
Qed.

Lemma get_blocks_succeeds_iff_enough_witness :
  free_list fresh blocks /\
  exists st' r,
    get_blocks 64 fresh 64 = Done (st', r) /\
    (r <> NO_BLOCK <-> 64 <= Z.of_nat (length blocks)).
Proof.
  split; [exact fresh_free_list|].
  apply (get_blocks_succeeds_iff_enough 64 fresh blocks 64 fresh_free_list);
    simpl; lia.
Defined.

Lemma lseg_links (s s' : list Z) (l : list Z) (t : Z) :
  forall h h',
    lseg s h l t -> lseg s' h' l t ->
    forall x, In x l -> nth (Z.to_nat x) s' 0 = nth (Z.to_nat x) s 0.
Proof.
  induction l as [|a l IH]; intros h h' H H' x Hx; [contradiction|].
  destruct H as (_ & _ & H), H' as (_ & _ & H').
  destruct Hx as [<-|Hx].
  - rewrite (lseg_hd _ _ _ _ H), (lseg_hd _ _ _ _ H'); reflexivity.
  - eapply IH; eassumption.
Qed.

(** X11.  A request that fails for lack of blocks is not a no-op on the links:
    it leaves the free list reversed.  The same request once more reverses
    it again and so restores the pool exactly. *)
Theorem failed_request_reverses_free_list (fuel : nat) (st : pool)
  (l : list Z) (need : Z) :
  free_list st l -> Z.of_nat (length l) < need ->
  (Z.to_nat MAX_BLOCKS <= fuel)%nat ->
  exists st1,
    get_blocks fuel st need = Done (st1, NO_BLOCK) /\
    free_list st1 (rev l) /\
    get_blocks fuel st1 need = Done (st, NO_BLOCK).
Proof.
  intros Hfl Hneed Hfuel.
  pose proof (fuel_enough fuel st l Hfl Hfuel) as Hf.
  destruct (get_blocks_failure fuel st l need Hfl) as (st1 & E1 & F1 & O1);
    [assumption | assumption |].
  destruct (get_blocks_failure fuel st1 (rev l) need F1) as (st2 & E2 & F2 & O2);
    [rewrite length_rev; assumption | rewrite length_rev; assumption |].
  exists st1; split; [assumption|]; split; [assumption|].
  rewrite E2; do 2 f_equal.
  rewrite rev_involutive in F2.
  destruct Hfl as (Hlen & Hl), F2 as (Hlen2 & Hl2); unfold chain in *.
  destruct st as [s fs], st2 as [s2 fs2]; simpl in *.
  f_equal.
  - apply (nth_ext s2 s 0 0); [congruence|].
    intros n Hn.
    destruct (in_dec Z.eq_dec (Z.of_nat n) l) as [Hin|Hout].
    + pose proof (lseg_links s s2 l NO_BLOCK fs fs2 Hl Hl2 _ Hin) as H.
      rewrite Nat2Z.id in H; exact H.
    + destruct O1 as (_ & O1), O2 as (_ & O2).
      specialize (O1 (Z.of_nat n) ltac:(lia) Hout).
      specialize (O2 (Z.of_nat n) ltac:(lia)).
      rewrite Nat2Z.id in O1, O2; rewrite O2, O1; [reflexivity|].
      intros H; apply Hout, in_rev; assumption.
  - rewrite (lseg_hd _ _ _ _ Hl), (lseg_hd _ _ _ _ Hl2); reflexivity.
Qed.

Lemma failed_request_reverses_free_list_witness :
  free_list fresh blocks /\
  exists st1,
    get_blocks 64 fresh 70 = Done (st1, NO_BLOCK) /\
    free_list st1 (rev blocks) /\
    get_blocks 64 st1 70 = Done (fresh, NO_BLOCK).
Proof.
  split; [exact fresh_free_list|].
  apply (failed_request_reverses_free_list 64 fresh blocks 70 fresh_free_list);
    simpl; lia.
Defined.

(** X12.  [display_state] prints one digit per block, in block order: 0 for the
    blocks on the free list and 1 for all the others. *)
Theorem display_state_shows_free_list (fuel : nat) (st : pool) (l : list Z) :
  free_list st l -> (Z.to_nat MAX_BLOCKS <= fuel)%nat ->
  display_state fuel st =
  Done (map (fun j => if member l j then 0 else 1) blocks).
Proof.
  intros Hfl Hfuel; apply display_state_spec; [assumption|].
  apply (fuel_enough fuel st l Hfl Hfuel).
Qed.

Lemma display_state_shows_free_list_witness :
  free_list fresh blocks /\
  display_state 64 fresh =
  Done (map (fun j => if member blocks j then 0 else 1) blocks).
Proof.
  split; [exact fresh_free_list|].
  apply (display_state_shows_free_list 64 fresh blocks fresh_free_list).
  simpl; lia.
Defined.

Lemma clear_status_marks (l : list Z) :
  forall fuel s status cur,
    lseg s cur l NO_BLOCK -> (length l <= fuel)%nat ->
    length status = length s ->
    exists status',
      clear_status fuel s status cur = Done status' /\
      length status' = length status /\
      forall k : nat,
        nth k status' 0 = if member l (Z.of_nat k) then 0 else nth k status 0.
Proof.
  induction l as [|x l IH]; intros fuel s status cur H Hfuel Hlen.
  - simpl in H; subst cur; exists status.
    split; [destruct fuel; reflexivity|]; split; [reflexivity|].
    intros k; reflexivity.
  - destruct H as (-> & Hb & H).
    pose proof (proj1 (in_bounds_iff _ _) Hb) as Bx.
    destruct fuel as [|fuel]; simpl in Hfuel; [lia|].
    cbn [clear_status].
    replace (x =? NO_BLOCK) with false by (unfold NO_BLOCK; lia).
    rewrite store_in by (rewrite Hlen; assumption).
    rewrite load_in by assumption; cbn [bind].
    destruct (IH fuel s (upd status (Z.to_nat x) 0) _ H) as (st' & E & L & N);
      [lia | rewrite upd_length; assumption |].
    exists st'; split; [assumption|]; split;
      [rewrite L; apply upd_length|].
    intros k; rewrite N; unfold member; simpl existsb.
    destruct (Z.eqb_spec (Z.of_nat k) x) as [<-|Hne]; simpl orb.
    + rewrite Nat2Z.id, nth_upd_same by lia.
      destruct (existsb (Z.eqb (Z.of_nat k)) l); reflexivity.
    + rewrite nth_upd_other by lia; reflexivity.
Qed.

Lemma nth_blocks (n : nat) :
  (n < Z.to_nat MAX_BLOCKS)%nat -> nth n blocks 0 = Z.of_nat n.
Proof.
  intros Hn; unfold blocks.
  change 0 with (Z.of_nat 0).
  rewrite (map_nth Z.of_nat), seq_nth by assumption; reflexivity.
Qed.

(** X13.  The two status printers agree: on every well-formed pool
    [show_linked_list_state] and [display_state] print the same digits. *)
Theorem status_printers_agree (fuel : nat) (st : pool) (l : list Z) :
  free_list st l -> (Z.to_nat MAX_BLOCKS <= fuel)%nat ->
  show_linked_list_state fuel st = display_state fuel st.
Proof.
  intros Hfl Hfuel.
  pose proof (fuel_enough fuel st l Hfl Hfuel) as Hf.
  rewrite (display_state_spec fuel st l Hfl Hf).
  destruct Hfl as (Hlen & Hl); unfold chain in Hl.
  unfold show_linked_list_state.
  destruct (clear_status_marks l fuel (storage st)
              (repeat 1 (Z.to_nat MAX_BLOCKS)) (free_start st) Hl Hf)
    as (status' & E & L & N); [rewrite repeat_length; congruence|].
  rewrite E; f_equal.
  rewrite repeat_length in L.
  apply (nth_ext _ _ 0 ((fun j => if member l j then 0 else 1) 0)).
  - rewrite length_map, blocks_length; assumption.
  - intros n Hn; rewrite L in Hn.
    rewrite (map_nth (fun j => if member l j then 0 else 1) blocks 0 n).
    rewrite (nth_blocks n Hn), N, nth_repeat_lt by assumption; reflexivity.
Qed.

Lemma status_printers_agree_witness :
  free_list fresh blocks /\
  show_linked_list_state 64 fresh = display_state 64 fresh.
Proof.
  split; [exact fresh_free_list|].
  apply (status_printers_agree 64 fresh blocks fresh_free_list); simpl; lia.
Defined.

Lemma upd_upd (a : list Z) (i : nat) (v w : Z) :
  upd (upd a i v) i w = upd a i w.
Proof.
  revert i; induction a as [|h t IH]; intros [|i]; simpl; auto.
  now rewrite IH.
Qed.

(** X14.  For a single block the round trip holds: [get_blocks(1)] hands out the
    head of the free list, and releasing that handle restores the pool
    exactly. *)
Theorem single_block_round_trip (fuel : nat) (st : pool) (l : list Z) :
  free_list st l -> l <> [] ->
  exists st1,
    get_blocks fuel st 1 = Done (st1, free_start st) /\
    release_blocks fuel st1 (free_start st) = Done st.
Proof.
  intros (Hlen & Hl) Hne; unfold chain in Hl.
  destruct l as [|x l]; [congruence|].
  destruct st as [s fs]; simpl in *.
  pose proof Hl as (-> & Hb & _).
  pose proof (proj1 (in_bounds_iff _ _) Hb) as Bx.
  unfold get_blocks; simpl Z.leb; cbn iota.
  change (Z.to_nat 1) with 1%nat; cbn [get_blocks_loop].
  rewrite (get_one_block_cons s x x l Hl); cbn [bind].
  replace (x =? NO_BLOCK) with false by (unfold NO_BLOCK; lia).
  cbn [Z.eqb NO_BLOCK negb].
  eexists; split; [reflexivity|].
  unfold release_blocks; cbn [storage free_start].
  replace (x =? NO_BLOCK) with false by (unfold NO_BLOCK; lia).
  assert (E : find_last fuel (upd s (Z.to_nat x) NO_BLOCK) x x = Done x).
  { destruct fuel; cbn [find_last];
      rewrite load_in, nth_updZ_same by (rewrite ?upd_length; assumption);
      reflexivity. }
  rewrite E; cbn [bind].
  rewrite store_in by (rewrite upd_length; assumption); cbn [bind].
  rewrite upd_upd, upd_nth; reflexivity.
Qed.

Lemma single_block_round_trip_witness :
  free_list fresh blocks /\
  exists st1,
    get_blocks 0 fresh 1 = Done (st1, free_start fresh) /\
    release_blocks 0 st1 (free_start fresh) = Done fresh.
Proof.
  split; [exact fresh_free_list|].
  apply (single_block_round_trip 0 fresh blocks fresh_free_list).
  discriminate.
Defined.

(** X15.  What [release_blocks] gives back of a longer chain: for a chain of two
    or more blocks, disjoint from the free list, the handle becomes the new
    [free_start] and every block of the chain but its last one is put in
    front of the old free list; the last block is on no list afterwards. *)
Theorem release_returns_all_but_last (fuel : nat) (st : pool) (h y z : Z)
  (l fl : list Z) :
  free_list st fl -> chain st h (l ++ [y; z]) ->
  NoDup ((l ++ [y; z]) ++ fl) -> (length l < fuel)%nat ->
  exists st',
    release_blocks fuel st h = Done st' /\
    free_start st' = h /\
    free_list st' (l ++ y :: fl) /\ ~ In z (l ++ y :: fl).
Proof.
  intros Hfl Hch ND Hfuel.
  destruct (release_blocks_long fuel st h y z l fl Hfl Hch ND Hfuel)
    as (st' & E & F & Hz).
  exists st'; split; [assumption|]; split; [|split; assumption].
  destruct F as (_ & F); unfold chain in *.
  rewrite (lseg_hd _ _ _ _ F), (lseg_hd _ _ _ _ Hch).
  destruct l; reflexivity.
Qed.

Lemma release_returns_all_but_last_witness :
  let st := mkPool ([1; 2; -1] ++ skipn 3 (storage fresh)) 3 in
  get_blocks 0 fresh 3 = Done (st, 0) /\
  free_list st (skipn 3 blocks) /\
  chain st 0 ([0] ++ [1; 2]) /\
  exists st',
    release_blocks 2 st 0 = Done st' /\
    free_start st' = 0 /\
    free_list st' ([0] ++ 1 :: skipn 3 blocks) /\
    ~ In 2 ([0] ++ 1 :: skipn 3 blocks).
Proof.
  intros st.
  assert (Hfl : free_list st (skipn 3 blocks)).
  { split; [reflexivity|]. unfold chain; simpl; repeat split. }
  assert (Hch : chain st 0 ([0] ++ [1; 2])).
  { unfold chain; simpl; repeat split. }
  split; [reflexivity|]; split; [exact Hfl|]; split; [exact Hch|].
  apply (release_returns_all_but_last 2 st 0 1 2 [0] (skipn 3 blocks) Hfl Hch).
  - exact (lseg_NoDup _ _ _ (proj2 fresh_free_list)).
  - simpl; lia.
Defined.

(** X16.  A later allocation leaves an earlier one alone: after two successful
    requests in a row both chains are intact and share no block. *)
Theorem allocations_keep_earlier_chains (fuel : nat) (st : pool)
  (l : list Z) (n1 n2 : Z) :
  free_list st l -> 1 <= n1 -> 1 <= n2 -> n1 + n2 <= Z.of_nat (length l) ->
  exists st1 h1 st2 h2 c1 c2,
    get_blocks fuel st n1 = Done (st1, h1) /\
    get_blocks fuel st1 n2 = Done (st2, h2) /\
    c1 = firstn (Z.to_nat n1) l /\
    c2 = firstn (Z.to_nat n2) (skipn (Z.to_nat n1) l) /\
    chain st2 h1 c1 /\ chain st2 h2 c2 /\
    (forall x, In x c1 -> ~ In x c2) /\
    free_list st2 (skipn (Z.to_nat n2) (skipn (Z.to_nat n1) l)).
Proof.
  intros Hfl H1 H2 Hfit.
  destruct (get_blocks_success fuel st l n1 Hfl) as (st1 & E1 & C1 & F1 & _);
    [lia|].
  destruct (get_blocks_success fuel st1 _ n2 F1) as (st2 & E2 & C2 & F2 & O2).
  { rewrite length_skipn; lia. }
  assert (ND : NoDup l) by (destruct Hfl as (_ & Hl); eapply lseg_NoDup, Hl).
  rewrite <- (firstn_skipn (Z.to_nat n1) l) in ND.
  destruct (NoDup_app_inv _ _ ND) as (_ & _ & Hdisj).
  exists st1, (free_start st), st2, (free_start st1),
         (firstn (Z.to_nat n1) l),
         (firstn (Z.to_nat n2) (skipn (Z.to_nat n1) l)).
  split; [assumption|]; split; [assumption|].
  split; [reflexivity|]; split; [reflexivity|].
  split; [|split; [assumption|split; [|assumption]]].
  - unfold chain in *.
    apply (lseg_outside _ (storage st1) (storage st2) _ _ _ O2);
      [|assumption].
    intros x Hx; apply Hdisj; assumption.
  - intros x Hx Hx2; apply (Hdisj x Hx).
    rewrite <- (firstn_skipn (Z.to_nat n2) (skipn (Z.to_nat n1) l)).
    apply in_app_iff; left; assumption.
Qed.

Lemma allocations_keep_earlier_chains_witness :
  free_list fresh blocks /\
  exists st1 h1 st2 h2 c1 c2,
    get_blocks 0 fresh 3 = Done (st1, h1) /\
    get_blocks 0 st1 2 = Done (st2, h2) /\
    c1 = firstn (Z.to_nat 3) blocks /\
    c2 = firstn (Z.to_nat 2) (skipn (Z.to_nat 3) blocks) /\
    chain st2 h1 c1 /\ chain st2 h2 c2 /\
    (forall x, In x c1 -> ~ In x c2) /\
    free_list st2 (skipn (Z.to_nat 2) (skipn (Z.to_nat 3) blocks)).
Proof.
  split; [exact fresh_free_list|].
  apply (allocations_keep_earlier_chains 0 fresh blocks 3 2 fresh_free_list);
    simpl; lia.
Defined.

End LinkedListProperties.

(* ------------------------------------------------------------------ *)
(** ** Properties of the programs around the allocators *)

Module ProgramProperties.
Import Bitmap BitmapFacts BitmapProperties.
Import LinkedList LinkedListFacts LinkedListProperties Driver.

Lemma in_skipn_blocks (k : nat) (j : Z) :
  In j (skipn k blocks) <-> Z.of_nat k <= j < MAX_BLOCKS.
Proof.
  unfold blocks; rewrite skipn_map, skipn_seq, in_map_iff; split.
  - intros (n & <- & Hn); apply in_seq in Hn.
    unfold MAX_BLOCKS in *; lia.
  - intros Hj; exists (Z.to_nat j); split; [lia|].
    apply in_seq; unfold MAX_BLOCKS in *; lia.
Qed.

Lemma display_packed (fuel k : nat) (st : pool) :
  free_list st (skipn k blocks) -> (Z.to_nat MAX_BLOCKS <= fuel)%nat ->
  display_state fuel st = Done (packed_line (Z.of_nat k)).
Proof.
  intros Hfl Hfuel.
  rewrite (display_state_spec fuel st _ Hfl)
    by (apply (fuel_enough fuel st _ Hfl Hfuel)).
  f_equal; unfold packed_line.
  change block_ids with blocks.
  apply map_ext_in; intros j Hj.
  apply in_blocks in Hj.
  destruct (member (skipn k blocks) j) eqn:Hm.
  - apply member_In, in_skipn_blocks in Hm.
    replace (j <? Z.of_nat k) with false by lia; reflexivity.
  - destruct (Z.ltb_spec j (Z.of_nat k)) as [|Hge]; [reflexivity|].
    assert (Hin : member (skipn k blocks) j = true)
      by (apply member_In, in_skipn_blocks; lia).
    congruence.
Qed.

Lemma list_trace_spec (fuel : nat) (steps : list Z) :
  forall (k : nat) (st : pool),
    free_list st (skipn k blocks) -> (Z.to_nat MAX_BLOCKS <= fuel)%nat ->
    Forall (fun x => 1 <= x) steps ->
    Z.of_nat k + fold_right Z.add 0 steps <= MAX_BLOCKS ->
    LinkedList.trace_loop fuel steps st =
    Done (map packed_line (running (Z.of_nat k) steps)).
Proof.
  induction steps as [|x steps IH]; intros k st Hfl Hfuel Hpos Hsum;
    [reflexivity|].
  apply Forall_cons_iff in Hpos as (Hx & Hpos); simpl in Hsum.
  assert (0 <= fold_right Z.add 0 steps).
  { clear -Hpos; induction Hpos; simpl; lia. }
  destruct (get_blocks_success fuel st _ x Hfl) as (st' & E & _ & F & _).
  { rewrite length_skipn, blocks_length; unfold MAX_BLOCKS in *; lia. }
  rewrite skipn_skipn in F.
  cbn [LinkedList.trace_loop running map]; rewrite E; cbn [bind].
  rewrite (display_packed fuel _ st' F Hfuel); cbn [bind].
  rewrite (IH _ st' F Hfuel Hpos) by lia.
  replace (Z.of_nat (Z.to_nat x + k)) with (Z.of_nat k + x) by lia.
  reflexivity.
Qed.

(** X17.  The two trace programs print the same lines: for a sequence of steps
    of at least one block each that together fit the pool, the trace of the
    linked list and the trace of the bitmap both print, after each step, the
    blocks below the running total as used and all others as free. *)
Theorem traces_agree (fuel : nat) (steps : list Z) :
  Forall (fun x => 1 <= x) steps ->
  fold_right Z.add 0 steps <= 64 ->
  (Z.to_nat MAX_BLOCKS <= fuel)%nat ->
  LinkedList.trace_loop fuel steps fresh =
  Done (map packed_line (running 0 steps)) /\
  LinkedList.trace_loop fuel steps fresh = Bitmap.trace_loop steps map_init.
Proof.
  intros Hpos Hsum Hfuel.
  assert (E1 : LinkedList.trace_loop fuel steps fresh =
               Done (map packed_line (running 0 steps))).
  { apply (list_trace_spec fuel steps 0%nat fresh fresh_free_list);
      assumption. }
  split; [assumption|].
  rewrite E1; symmetry.
  apply (trace_loop_spec steps map_init 0 packed_map_init);
    try assumption; unfold BLOCK_COUNT; lia.
Qed.

Lemma traces_agree_witness :
  Forall (fun x => 1 <= x) trace_seq /\
  fold_right Z.add 0 trace_seq <= 64 /\
  trace_test_list 64 = Done (map packed_line (running 0 trace_seq)) /\
  trace_test_list 64 = trace_test_bitmap.
Proof.
  assert (H1 : Forall (fun x => 1 <= x) trace_seq)
    by (repeat constructor; lia).
  assert (H2 : fold_right Z.add 0 trace_seq <= 64)
    by (vm_compute; discriminate).
  split; [exact H1|]; split; [exact H2|].
  apply (traces_agree 64 trace_seq H1 H2); simpl; lia.
Defined.

Lemma run_bitmap_safe (reqs : list request) :
  forall m log,
    wf_map m -> Forall extent_ok log ->
    exists obs, run_bitmap reqs m log = Done obs /\
                length obs = length (filter (fun r => match r with
                                                       | Allocate _ => true
                                                       | Release _ => false
                                                       end) reqs).
Proof.
  induction reqs as [|[need|k] reqs IH]; intros m log Hm Hlog.
  - exists []; split; reflexivity.
  - cbn [run_bitmap filter].
    destruct (allocate_cases m need Hm)
      as [(E & _) | (m' & s0 & E & Hneed & (F0 & F1 & _) & _ & W' & _)];
      rewrite E; cbn [bind].
    + destruct (IH m (log ++ [(-1, need)]) Hm) as (obs & R & L).
      { apply Forall_app; split; [assumption|].
        constructor; [intros H; simpl in H; congruence | constructor]. }
      rewrite R; cbn [bind]; eexists; split; [reflexivity|].
      simpl; now rewrite L.
    + destruct (IH m' (log ++ [(s0, need)]) W') as (obs & R & L).
      { apply Forall_app; split; [assumption|].
        constructor; [intros _; simpl; lia | constructor]. }
      rewrite R; cbn [bind]; eexists; split; [reflexivity|].
      simpl; now rewrite L.
  - cbn [run_bitmap filter].
    destruct (nth_error log k) as [[h size]|] eqn:Ek; [|apply IH; assumption].
    destruct (Z.eqb_spec h (-1)) as [->|Hne]; [apply IH; assumption|].
    apply nth_error_In in Ek.
    rewrite Forall_forall in Hlog.
    destruct (Hlog _ Ek Hne) as (A0 & A1 & A2); simpl in A0, A1, A2.
    destruct (free_spec m h size Hm A0 A1 A2) as (m' & E & W' & _).
    rewrite E; cbn [bind]; apply IH; [assumption|].
    apply Forall_forall; assumption.
Qed.

(** X18.  The bitmap stays inside its array: every sequence of allocations and
    of releases of extents handed out before, a repeated release of the same
    extent included, runs to the end without an access outside the map, and
    reports one outcome per allocation. *)
Theorem bitmap_requests_stay_in_bounds (reqs : list request) :
  exists obs,
    bitmap_outcomes reqs = Done obs /\
    length obs = length (filter (fun r => match r with
                                           | Allocate _ => true
                                           | Release _ => false
                                           end) reqs).
Proof.
  apply run_bitmap_safe; [|constructor].
  split; [reflexivity | repeat constructor; lia].
Qed.

End ProgramProperties.
